(** * A spreadsheet engine: cells, dependency graph, cached evaluation

    Shallow embedding of [spreadsheet/cell.cpp] and [spreadsheet/formula.cpp]
    together with the declarations of [cell.h] and [sheet.h].

    Cells live in slots owned by the sheet and are never destroyed, so a
    [Cell*] is represented by the [Position] of its slot and [nullptr] by the
    absence of a cell.  Code that may throw, dereference a null pointer or
    recurse is written in an outcome monad that threads the mutable state.

    The file has four parts: the engine over its outside collaborators
    (section [Engine]), a small instance of the collaborators ([Demo]), the
    properties of the engine for every instance (section [EngineFacts]), and
    runs of the engine on the small instance. *)

From stdpp Require Import gmap strings list fin_maps.
From Stdlib Require Import ZArith Ascii String Permutation Sorted.

Local Open Scope string_scope.
Local Open Scope Z_scope.

(** ** Positions *)

(** [struct Position { int row; int col; }] *)
Record Position := mkPosition { row : Z; col : Z }.

Global Instance Position_eq_dec : EqDecision Position.
Proof. solve_decision. Defined.

Global Instance Position_countable : Countable Position.
Proof.
  refine (inj_countable' (λ p, (row p, col p)) (λ rc, mkPosition rc.1 rc.2) _).
  by intros [].
Defined.

(** Modelled from the spec: [Position::operator<] of common.h; positions are
    totally ordered row-major. *)
Definition Position_ltb (a b : Position) : bool :=
  (row a <? row b) || ((row a =? row b) && (col a <? col b)).

Definition Position_lt (a b : Position) : Prop := Position_ltb a b = true.
Definition Position_le (a b : Position) : Prop := Position_ltb b a = false.

(** ** Errors *)

(** Modelled from the spec: [FormulaError::Category] of common.h, the kinds
    Ref, Value and Div0. *)
Module Category.
Inductive t := Ref | Value | Div0.
End Category.

Record FormulaError := mkFormulaError { category : Category.t }.

Global Instance Category_eq_dec : EqDecision Category.t.
Proof. solve_decision. Defined.

Global Instance FormulaError_eq_dec : EqDecision FormulaError.
Proof. solve_decision. Defined.

(** The exceptions that leave the engine's functions. *)
Inductive Exception :=
  | FormulaErrorThrown (e : FormulaError)
  | FormulaException (what : string)
  | CircularDependencyException (what : string)
  | InvalidPositionException (what : string).

(** Modelled from the spec: the textual error tokens. *)
Definition error_token (c : Category.t) : string :=
  match c with
  | Category.Ref => "#REF!"
  | Category.Value => "#VALUE!"
  | Category.Div0 => "#DIV/0!"
  end.

(** [std::ostream& operator<<(std::ostream& output, FormulaError fe)]; the
    stream is the text written so far. *)
Definition print_FormulaError (output : string) (fe : FormulaError) : string :=
  output +:+ "#DIV/0!".

(** ** Outcomes of effectful code

    [Ret a s] is a normal return with the state left behind, [Throw e s] a
    C++ exception leaving the state [s] behind, [Undefined] a null-pointer
    dereference, and [OutOfFuel] belongs to the embedding only: the
    recursion bound was too small. *)
Inductive Outcome (S A : Type) :=
  | Ret (a : A) (s : S)
  | Throw (e : Exception) (s : S)
  | Undefined
  | OutOfFuel.
Arguments Ret {S A} a s.
Arguments Throw {S A} e s.
Arguments Undefined {S A}.
Arguments OutOfFuel {S A}.

Definition bind {S A B} (m : S → Outcome S A) (k : A → S → Outcome S B)
    (s : S) : Outcome S B :=
  match m s with
  | Ret a s1 => k a s1
  | Throw e s1 => Throw e s1
  | Undefined => Undefined
  | OutOfFuel => OutOfFuel
  end.

Notation "'let!' x := m 'in' k" := (bind m (λ x, k))
  (at level 10, x name, m at level 100, k at level 200).

(** The state an operation leaves behind, when it leaves one. *)
Definition state_after {S A} (o : Outcome S A) : option S :=
  match o with
  | Ret _ s | Throw _ s => Some s
  | Undefined | OutOfFuel => None
  end.

(** ** Regular expressions, for [kDoubleValuePattern] *)

Inductive regex :=
  | Nothing
  | Eps
  | Chr (c : ascii)
  | AnyChar
  | Range (lo hi : ascii)
  | Seq (r1 r2 : regex)
  | Alt (r1 r2 : regex)
  | Star (r : regex).

Definition Opt (r : regex) : regex := Alt r Eps.
Definition Plus (r : regex) : regex := Seq r (Star r).

Fixpoint nullable (r : regex) : bool :=
  match r with
  | Nothing | Chr _ | AnyChar | Range _ _ => false
  | Eps | Star _ => true
  | Seq r1 r2 => nullable r1 && nullable r2
  | Alt r1 r2 => nullable r1 || nullable r2
  end.

(** ECMAScript [.] matches every character but the line terminators. *)
Definition is_line_terminator (c : ascii) : bool :=
  (nat_of_ascii c =? 10)%nat || (nat_of_ascii c =? 13)%nat.

Definition in_range (lo hi c : ascii) : bool :=
  (nat_of_ascii lo <=? nat_of_ascii c)%nat && (nat_of_ascii c <=? nat_of_ascii hi)%nat.

Fixpoint deriv (c : ascii) (r : regex) : regex :=
  match r with
  | Nothing | Eps => Nothing
  | Chr c' => if Ascii.eqb c c' then Eps else Nothing
  | AnyChar => if is_line_terminator c then Nothing else Eps
  | Range lo hi => if in_range lo hi c then Eps else Nothing
  | Seq r1 r2 =>
      if nullable r1 then Alt (Seq (deriv c r1) r2) (deriv c r2)
      else Seq (deriv c r1) r2
  | Alt r1 r2 => Alt (deriv c r1) (deriv c r2)
  | Star r1 => Seq (deriv c r1) (Star r1)
  end.

(** [std::regex_match]: the whole text has to match. *)
Fixpoint regex_match (text : string) (r : regex) : bool :=
  match text with
  | EmptyString => nullable r
  | String c rest => regex_match rest (deriv c r)
  end.

Definition digit_0_9 : regex := Range "0" "9".
Definition digit_1_9 : regex := Range "1" "9".

(** The pattern of [CellValueGetter]: an optional minus sign, then 0 or a
    digit 1-9 followed by digits, then optionally one character matched by
    the unescaped dot followed by one or more digits. *)
Definition kDoubleValuePattern : regex :=
  Seq (Opt (Chr "-"))
    (Seq (Alt (Chr "0") (Seq digit_1_9 (Star digit_0_9)))
       (Opt (Seq AnyChar (Plus digit_0_9)))).

(** Modelled from the spec: the strict decimal grammar, an optional sign,
    the integer part 0 or a digit 1-9 followed by digits, and an optional
    fractional part made of a dot and one or more digits. *)
Definition strict_decimal : regex :=
  Seq (Opt (Chr "-"))
    (Seq (Alt (Chr "0") (Seq digit_1_9 (Star digit_0_9)))
       (Opt (Seq (Chr ".") (Plus digit_0_9)))).

(** [regex_le r r']: [r'] is [r] with some characters of [r], none of them a
    line terminator, widened to the dot, up to alternatives added. *)
Inductive regex_le : regex → regex → Prop :=
  | regex_le_refl r : regex_le r r
  | regex_le_nothing r : regex_le Nothing r
  | regex_le_any c : is_line_terminator c = false → regex_le (Chr c) AnyChar
  | regex_le_seq r1 r2 r1' r2' :
      regex_le r1 r1' → regex_le r2 r2' → regex_le (Seq r1 r2) (Seq r1' r2')
  | regex_le_alt r1 r2 r1' r2' :
      regex_le r1 r1' → regex_le r2 r2' → regex_le (Alt r1 r2) (Alt r1' r2')
  | regex_le_alt_l r r1 r2 : regex_le r r1 → regex_le r (Alt r1 r2)
  | regex_le_alt_r r r1 r2 : regex_le r r2 → regex_le r (Alt r1 r2)
  | regex_le_star r r' : regex_le r r' → regex_le (Star r) (Star r').

(** ** [std::unique] and [std::sort] on vectors of positions *)

(** Drops every element equal to its predecessor. *)
Fixpoint std_unique (l : list Position) : list Position :=
  match l with
  | [] => []
  | x :: rest =>
      match rest with
      | [] => [x]
      | y :: _ => if decide (x = y) then std_unique rest else x :: std_unique rest
      end
  end.

Fixpoint sorted_insert (x : Position) (l : list Position) : list Position :=
  match l with
  | [] => [x]
  | y :: rest => if Position_ltb y x then y :: sorted_insert x rest else x :: y :: rest
  end.

(** The result of [std::sort] with [operator<]. *)
Fixpoint std_sort (l : list Position) : list Position :=
  match l with
  | [] => []
  | x :: rest => sorted_insert x (std_sort rest)
  end.

(** ** The collaborators outside the engine *)

(** Modelled from the spec: [FormulaAST::Execute] takes a lookup from positions
    to numbers and returns a number or throws a [FormulaError].  A run of it
    is a tree: it returns, throws, or asks the lookup for a position and
    goes on with the answer. *)
Inductive Exec (D : Type) :=
  | Result (d : D)
  | Raise (e : FormulaError)
  | Lookup (position : Position) (k : D → Exec D).
Arguments Result {D} d.
Arguments Raise {D} e.
Arguments Lookup {D} position k.

(** What the engine takes from common.h, FormulaAST.h and the C++ library:
    the number type with the literal [0.], [std::stod] ([None] when it
    throws), the parser ([None] when it throws), the cells and the
    evaluation of a parsed formula, its printed form, and the grid limits. *)
Class Collaborators := {
  double : Type;
  zero : double;
  stod : string → option double;
  FormulaAST : Type;
  ParseFormulaAST : string → option FormulaAST;
  GetCells : FormulaAST → list Position;
  Execute : FormulaAST → Exec double;
  PrintFormula : FormulaAST → string;
  MAX_ROWS : Z;
  MAX_COLS : Z
}.

(** A function without side effects that returns or throws. *)
Inductive Try (A : Type) :=
  | Returns (a : A)
  | Throws (e : Exception).
Arguments Returns {A} a.
Arguments Throws {A} e.

(** Modelled from the spec: the character conventions of common.h, the
    equals sign for formulas and the apostrophe for escaped text. *)
Definition FORMULA_SIGN : ascii := "=".
Definition ESCAPE_SIGN : ascii := "'".

(** [std::unordered_set<const Cell*>]: a list without repetitions; [insert]
    puts a new element in front, and the loops of the engine run through the
    list from its head.  The C++ library leaves that order open. *)
Definition set_insert (x : Position) (l : list Position) : list Position :=
  if decide (x ∈ l) then l else x :: l.

Definition set_erase (x : Position) (l : list Position) : list Position :=
  filter (λ y, y ≠ x) l.

Definition set_empty (l : list Position) : bool :=
  match l with [] => true | _ => false end.

Section Engine.
Context `{Collaborators}.

(** Modelled from the spec: [Position::IsValid] of common.h, both
    coordinates from 0 and below the limits of the grid. *)
Definition IsValid (p : Position) : bool :=
  (0 <=? row p) && (row p <? MAX_ROWS) && (0 <=? col p) && (col p <? MAX_COLS).

(** Modelled from the spec: [CellInterface::Value] of common.h, one of
    string, double and FormulaError. *)
Inductive Value :=
  | VString (text : string)
  | VDouble (value : double)
  | VError (error : FormulaError).

(** *** formula.cpp *)

(** [class Formula] with its two members. *)
Record Formula := mkFormula {
  ast_ : FormulaAST;
  referenced_cells_ : list Position
}.

(** The constructor [Formula::Formula(const std::string&)]: copy the cells
    of the tree, [std::unique], [erase], then [std::sort]. *)
Definition Formula_new (expression : string) : option Formula :=
  match ParseFormulaAST expression with
  | Some ast =>
      Some {| ast_ := ast;
              referenced_cells_ := std_sort (std_unique (GetCells ast)) |}
  | None => None
  end.

(** [ParseFormula]; [None] stands for the [FormulaException] it throws. *)
Definition ParseFormula (expression : string) : option Formula :=
  Formula_new expression.

Definition Formula_GetReferencedCells (f : Formula) : list Position :=
  referenced_cells_ f.

Definition Formula_GetExpression (f : Formula) : string :=
  PrintFormula (ast_ f).

(** [struct CellValueGetter], the visitor of the lookup closure. *)
Definition CellValueGetter (v : Value) : Try double :=
  match v with
  | VString text =>
      if regex_match text kDoubleValuePattern then
        match stod text with
        | Some d => Returns d
        | None => Throws (FormulaErrorThrown (mkFormulaError Category.Value))
        end
      else Throws (FormulaErrorThrown (mkFormulaError Category.Value))
  | VDouble value => Returns value
  | VError error => Throws (FormulaErrorThrown error)
  end.

(** *** The state: cells and the sheet *)

(** The three classes derived from [CellValueInterface]; the formula value
    carries its cache. *)
Inductive CellValue :=
  | EmptyCellValue
  | TextCellValue (text_ : string)
  | FormulaCellValue (formula_ : Formula) (cache_ : option double).

(** [class Cell]: [value_] may be null, the two edge sets hold cells. *)
Record Cell := mkCell {
  value_ : option CellValue;
  descending_cells_ : list Position;
  ascending_cells_ : list Position
}.

(** [Cell::Cell(SheetInterface&)] *)
Definition Cell_new : Cell :=
  {| value_ := None; descending_cells_ := []; ascending_cells_ := [] |}.

Definition with_value (v : option CellValue) (c : Cell) : Cell :=
  {| value_ := v; descending_cells_ := descending_cells_ c;
     ascending_cells_ := ascending_cells_ c |}.

Definition with_descending (d : list Position) (c : Cell) : Cell :=
  {| value_ := value_ c; descending_cells_ := d;
     ascending_cells_ := ascending_cells_ c |}.

Definition with_ascending (a : list Position) (c : Cell) : Cell :=
  {| value_ := value_ c; descending_cells_ := descending_cells_ c;
     ascending_cells_ := a |}.

(** The cells of the sheet by position; a position without a cell is a null
    or missing slot of [Sheet::data_]. *)
Abbreviation Sheet := (gmap Position Cell).

(** Modelled from the spec: [Sheet::GetCell] of sheet.cpp validates the
    position and returns the cell if present, else absent. *)
Definition Sheet_GetCell (s : Sheet) (position : Position) : Try (option Cell) :=
  if IsValid position then Returns (s !! position)
  else Throws (InvalidPositionException "").

(** [const Cell* Cell::GetCell(Position) const] *)
Definition Cell_GetCell (s : Sheet) (position : Position) : Try (option Cell) :=
  Sheet_GetCell s position.

(** *** cell.cpp: the cell values *)

(** [TextCellValue::GetValue]: one leading escape sign is dropped. *)
Definition TextCellValue_GetValue (text_ : string) : string :=
  match text_ with
  | String front rest => if Ascii.eqb front ESCAPE_SIGN then rest else text_
  | EmptyString => text_
  end.

(** [Cell::TryInterpretAsFormula]: the formula value behind the pointer, or
    null for a null pointer and for the other two types. *)
Definition TryInterpretAsFormula (cell : option CellValue)
    : option (Formula * option double) :=
  match cell with
  | Some (FormulaCellValue formula cache) => Some (formula, cache)
  | _ => None
  end.

(** [Cell::TryCreateCell] *)
Definition TryCreateCell (text : string) : Try CellValue :=
  match text with
  | String front rest =>
      if (1 <? String.length text)%nat && Ascii.eqb front FORMULA_SIGN then
        match ParseFormula rest with
        | Some formula => Returns (FormulaCellValue formula None)
        | None =>
            Throws (FormulaException ("Error in Set() method call for text: " +:+ text))
        end
      else Returns (TextCellValue text)
  | EmptyString => Returns EmptyCellValue
  end.

(** [FormulaCellValue::cache_ = v] and [InvalidateCache] on the cell at a
    position. *)
Definition with_cache (cache : option double) (c : Cell) : Cell :=
  match value_ c with
  | Some (FormulaCellValue formula _) =>
      with_value (Some (FormulaCellValue formula cache)) c
  | _ => c
  end.

(** *** Evaluation *)

(** The closure [get_value] of [Formula::Evaluate]; [GetValue] is the
    virtual call [cell->GetValue()]. *)
Definition get_value (GetValue : Position → Sheet → Outcome Sheet Value)
    (position : Position) (s : Sheet) : Outcome Sheet double :=
  match Sheet_GetCell s position with
  | Throws e => Throw e s
  | Returns None => Ret zero s
  | Returns (Some _) =>
      match GetValue position s with
      | Ret v s1 =>
          match CellValueGetter v with
          | Returns d => Ret d s1
          | Throws e => Throw e s1
          end
      | Throw e s1 => Throw e s1
      | Undefined => Undefined
      | OutOfFuel => OutOfFuel
      end
  end.

(** [ast_.Execute(get_value)]: the tree of the run is followed, every
    lookup going through the closure. *)
Fixpoint run_Execute (lookup : Position → Sheet → Outcome Sheet double)
    (t : Exec double) (s : Sheet) : Outcome Sheet double :=
  match t with
  | Result d => Ret d s
  | Raise e => Throw (FormulaErrorThrown e) s
  | Lookup position k =>
      match lookup position s with
      | Ret d s1 => run_Execute lookup (k d) s1
      | o => o
      end
  end.

(** [Formula::Evaluate]: a thrown [FormulaError] becomes the result. *)
Definition Formula_Evaluate (GetValue : Position → Sheet → Outcome Sheet Value)
    (f : Formula) (s : Sheet) : Outcome Sheet (double + FormulaError) :=
  match run_Execute (get_value GetValue) (Execute (ast_ f)) s with
  | Ret d s1 => Ret (inl d) s1
  | Throw (FormulaErrorThrown e) s1 => Ret (inr e) s1
  | Throw e s1 => Throw e s1
  | Undefined => Undefined
  | OutOfFuel => OutOfFuel
  end.

(** [FormulaCellValue::FormulaEvaluationGetter] *)
Definition FormulaEvaluationGetter (r : double + FormulaError) : Value :=
  match r with
  | inl value => VDouble value
  | inr error => VError error
  end.

(** [Cell::GetValue] on the cell at [self], dispatching on the type of its
    value; [fuel] bounds the depth of the evaluation. *)
Fixpoint Cell_GetValue (fuel : nat) (self : Position) (s : Sheet)
    : Outcome Sheet Value :=
  match fuel with
  | O => OutOfFuel
  | S fuel' =>
      match s !! self with
      | None => Undefined
      | Some this =>
          match value_ this with
          | None => Undefined
          | Some EmptyCellValue => Ret (VDouble zero) s
          | Some (TextCellValue text_) => Ret (VString (TextCellValue_GetValue text_)) s
          | Some (FormulaCellValue formula_ (Some v)) => Ret (VDouble v) s
          | Some (FormulaCellValue formula_ None) =>
              match Formula_Evaluate (Cell_GetValue fuel') formula_ s with
              | Ret (inl value) s1 =>
                  Ret (FormulaEvaluationGetter (inl value))
                      (alter (with_cache (Some value)) self s1)
              | Ret (inr error) s1 => Ret (FormulaEvaluationGetter (inr error)) s1
              | Throw e s1 => Throw e s1
              | Undefined => Undefined
              | OutOfFuel => OutOfFuel
              end
          end
      end
  end.

(** [Cell::GetText] on the cell at [self] *)
Definition Cell_GetText (self : Position) (s : Sheet) : Outcome Sheet string :=
  match s !! self with
  | None => Undefined
  | Some this =>
      match value_ this with
      | None => Undefined
      | Some EmptyCellValue => Ret "" s
      | Some (TextCellValue text_) => Ret text_ s
      | Some (FormulaCellValue formula_ _) =>
          Ret ("=" +:+ Formula_GetExpression formula_) s
      end
  end.

(** [Cell::GetReferencedCells]: the pointer that [TryInterpretAsFormula]
    returns is dereferenced as it comes. *)
Definition Cell_GetReferencedCells (self : Position) (s : Sheet)
    : Outcome Sheet (list Position) :=
  match s !! self with
  | None => Undefined
  | Some this =>
      match TryInterpretAsFormula (value_ this) with
      | Some (formula, _) => Ret (Formula_GetReferencedCells formula) s
      | None => Undefined
      end
  end.

(** *** The dependency graph *)

(** The loop of [Cell::HasCircularDependency] over the referenced
    positions; [descend] is the recursive call on a referenced cell.  The
    state is the visited set. *)
Fixpoint HasCircularDependency_loop
    (descend : option CellValue → list Position → Outcome (list Position) bool)
    (s : Sheet) (reference : Position) (positions : list Position)
    (visited : list Position) : Outcome (list Position) bool :=
  match positions with
  | [] => Ret false visited
  | position :: rest =>
      match Cell_GetCell s position with
      | Throws e => Throw e visited
      | Returns None => Undefined
      | Returns (Some cell) =>
          if decide (position = reference) then Ret true visited
          else if decide (position ∈ visited) then
            HasCircularDependency_loop descend s reference rest visited
          else
            match descend (value_ cell) (position :: visited) with
            | Ret true visited1 => Ret true visited1
            | Ret false visited1 =>
                HasCircularDependency_loop descend s reference rest visited1
            | o => o
            end
      end
  end.

(** [Cell::HasCircularDependency(reference, current, visited)] *)
Fixpoint HasCircularDependency (fuel : nat) (s : Sheet) (reference : Position)
    (current : option CellValue) (visited : list Position)
    : Outcome (list Position) bool :=
  match fuel with
  | O => OutOfFuel
  | S fuel' =>
      match TryInterpretAsFormula current with
      | None => Ret false visited
      | Some (formula_cell, _) =>
          HasCircularDependency_loop (HasCircularDependency fuel' s reference)
            s reference (Formula_GetReferencedCells formula_cell) visited
      end
  end.

(** The loop of [Cell::InvalidateReferencedCellsCache] over the ascending
    cells; the state is the visited set and the sheet.  A visited cell ends
    the whole call. *)
Fixpoint InvalidateReferencedCellsCache_loop
    (descend : Position → list Position * Sheet → Outcome (list Position * Sheet) unit)
    (cells : list Position) (st : list Position * Sheet)
    : Outcome (list Position * Sheet) unit :=
  match cells with
  | [] => Ret () st
  | cell :: rest =>
      if decide (cell ∈ st.1) then Ret () st
      else
        match st.2 !! cell with
        | None => Undefined
        | Some c =>
            match TryInterpretAsFormula (value_ c) with
            | Some (_, Some _) =>
                match descend cell (cell :: st.1, alter (with_cache None) cell st.2) with
                | Ret _ st1 => InvalidateReferencedCellsCache_loop descend rest st1
                | o => o
                end
            | _ => InvalidateReferencedCellsCache_loop descend rest (cell :: st.1, st.2)
            end
        end
  end.

(** [Cell::InvalidateReferencedCellsCache(visited)] on the cell at [self] *)
Fixpoint InvalidateReferencedCellsCache (fuel : nat) (self : Position)
    (st : list Position * Sheet) : Outcome (list Position * Sheet) unit :=
  match fuel with
  | O => OutOfFuel
  | S fuel' =>
      match st.2 !! self with
      | None => Undefined
      | Some this =>
          InvalidateReferencedCellsCache_loop (InvalidateReferencedCellsCache fuel')
            (ascending_cells_ this) st
      end
  end.

(** [Cell::RemoveOldConnections]; cells are never destroyed, so the
    pointers of the edge sets are live. *)
Definition RemoveOldConnections (self : Position) (s : Sheet) : Sheet :=
  match s !! self with
  | None => s
  | Some this =>
      alter (with_descending []) self
        (foldl (λ s1 cell,
                  alter (λ c, with_ascending (set_erase self (ascending_cells_ c)) c) cell s1)
               s (descending_cells_ this))
  end.

(** The loop of [Cell::EstablishNewConnections] *)
Fixpoint EstablishNewConnections_loop (self : Position)
    (positions : list Position) (s : Sheet) : Outcome Sheet unit :=
  match positions with
  | [] => Ret () s
  | position :: rest =>
      match Cell_GetCell s position with
      | Throws e => Throw e s
      | Returns None => Undefined
      | Returns (Some _) =>
          EstablishNewConnections_loop self rest
            (alter (λ c, with_ascending (set_insert self (ascending_cells_ c)) c) position
               (alter (λ c, with_descending (set_insert position (descending_cells_ c)) c)
                  self s))
      end
  end.

(** [Cell::EstablishNewConnections(formula_cell)] *)
Definition EstablishNewConnections (self : Position) (formula_cell : Formula)
    (s : Sheet) : Outcome Sheet unit :=
  EstablishNewConnections_loop self (Formula_GetReferencedCells formula_cell) s.

(** The last step of [Set] and the second of [Clear]: with ascending cells,
    invalidate from a visited set that holds the cell itself. *)
Definition invalidate_dependents (self : Position) (s : Sheet) : Outcome Sheet unit :=
  match s !! self with
  | None => Undefined
  | Some this =>
      if set_empty (ascending_cells_ this) then Ret () s
      else
        match InvalidateReferencedCellsCache (S (size s)) self ([self], s) with
        | Ret _ st => Ret () st.2
        | Throw e st => Throw e st.2
        | Undefined => Undefined
        | OutOfFuel => OutOfFuel
        end
  end.

(** The second step of [Set] and the first of [Clear]. *)
Definition remove_if_connected (self : Position) (s : Sheet) : Sheet :=
  match s !! self with
  | None => s
  | Some this =>
      if set_empty (descending_cells_ this) then s else RemoveOldConnections self s
  end.

(** The third step of [Set]. *)
Definition establish_if_formula (self : Position) (value : option CellValue)
    (s : Sheet) : Outcome Sheet unit :=
  match TryInterpretAsFormula value with
  | Some (formula_cell, _) => EstablishNewConnections self formula_cell s
  | None => Ret () s
  end.

(** [Cell::Set(text)] on the cell at [self] *)
Definition Cell_Set (self : Position) (text : string) (s : Sheet) : Outcome Sheet unit :=
  match s !! self with
  | None => Undefined
  | Some this =>
      match TryCreateCell text with
      | Throws e => Throw e s
      | Returns tmp =>
          match HasCircularDependency (S (size s)) s self (Some tmp) [self] with
          | Ret true _ => Throw (CircularDependencyException "") s
          | Ret false _ =>
              let s1 := <[self := with_value (Some tmp) this]> s in
              let s2 := remove_if_connected self s1 in
              (let! _ := establish_if_formula self (Some tmp) in
               invalidate_dependents self) s2
          | Throw e _ => Throw e s
          | Undefined => Undefined
          | OutOfFuel => OutOfFuel
          end
      end
  end.

(** [Cell::Clear] on the cell at [self] *)
Definition Cell_Clear (self : Position) (s : Sheet) : Outcome Sheet unit :=
  match s !! self with
  | None => Undefined
  | Some this =>
      match value_ this with
      | Some _ =>
          match invalidate_dependents self (remove_if_connected self s) with
          | Ret _ s2 => Ret () (alter (with_value (Some EmptyCellValue)) self s2)
          | o => o
          end
      | None => Ret () (alter (with_value (Some EmptyCellValue)) self s)
      end
  end.

(** *** The sheet *)

(** Modelled from the spec: [Sheet::SetCell] of sheet.cpp validates the
    position, grows the storage, ensures a cell exists at the position and
    delegates to [Cell::Set]. *)
Definition Sheet_SetCell (position : Position) (text : string) (s : Sheet)
    : Outcome Sheet unit :=
  if IsValid position then
    match s !! position with
    | Some _ => Cell_Set position text s
    | None => Cell_Set position text (<[position := Cell_new]> s)
    end
  else Throw (InvalidPositionException "") s.

(** Modelled from the spec: [Sheet::ClearCell] of sheet.cpp validates the
    position, does nothing for an absent cell and else delegates to
    [Cell::Clear]. *)
Definition Sheet_ClearCell (position : Position) (s : Sheet) : Outcome Sheet unit :=
  if IsValid position then
    match s !! position with
    | Some _ => Cell_Clear position s
    | None => Ret () s
    end
  else Throw (InvalidPositionException "") s.

(** Reading a cell through the sheet: [GetCell(position)->GetValue()]. *)
Definition Sheet_GetValue (position : Position) (s : Sheet) : Outcome Sheet Value :=
  if IsValid position then Cell_GetValue (S (size s)) position s
  else Throw (InvalidPositionException "") s.

(** The public operations that change the state. *)
Inductive Operation :=
  | SetCell (position : Position) (text : string)
  | ClearCell (position : Position)
  | GetValue (position : Position).

Definition perform (op : Operation) (s : Sheet) : option Sheet :=
  match op with
  | SetCell position text => state_after (Sheet_SetCell position text s)
  | ClearCell position => state_after (Sheet_ClearCell position s)
  | GetValue position => state_after (Sheet_GetValue position s)
  end.

(** The state after a sequence of operations on the sheet; an operation
    that throws leaves its state to the next one. *)
Fixpoint perform_all (ops : list Operation) (s : Sheet) : option Sheet :=
  match ops with
  | [] => Some s
  | op :: rest =>
      match perform op s with
      | Some s1 => perform_all rest s1
      | None => None
      end
  end.

(** *** The texts of the values and the outcome of a call *)

(** [GetText] of the three classes of cell values. *)
Definition CellValue_GetText (value : CellValue) : string :=
  match value with
  | EmptyCellValue => ""
  | TextCellValue text_ => text_
  | FormulaCellValue formula_ _ => "=" +:+ Formula_GetExpression formula_
  end.

(** The value a call returns, when it returns. *)
Definition returned {S A : Type} (o : Outcome S A) : option A :=
  match o with
  | Ret a _ => Some a
  | _ => None
  end.

(** An outcome with its state changed by [f]. *)
Definition then_state {S A : Type} (f : S → S) (o : Outcome S A) : Outcome S A :=
  match o with
  | Ret a s => Ret a (f s)
  | Throw e s => Throw e (f s)
  | Undefined => Undefined
  | OutOfFuel => OutOfFuel
  end.

(** [cleared s s']: [s'] is [s] with some caches emptied. *)
Definition cleared (s s' : Sheet) : Prop :=
  ∀ a, s' !! a = s !! a ∨ s' !! a = with_cache None <$> s !! a.

(** The state of an invalidation, the visited set and the sheet, with the
    value of the cell at [self] replaced. *)
Definition value_aside (self : Position) (v : option CellValue)
    (st : list Position * Sheet) : list Position * Sheet :=
  (st.1, alter (with_value v) self st.2).

(** *** Vocabulary of the properties *)

(** The sheet with every cache emptied: what the values, the formulas and
    the edges are, and what an evaluation from scratch starts from. *)
Definition skeleton (s : Sheet) : Sheet := with_cache None <$> s.

(** The cache of the formula cell at a position. *)
Definition cache_of (s : Sheet) (position : Position) : option double :=
  match s !! position with
  | Some c =>
      match value_ c with
      | Some (FormulaCellValue _ cache) => cache
      | _ => None
      end
  | None => None
  end.

(** [caches_kept s s']: every filled cache of [s] is in [s'] with its
    number. *)
Definition caches_kept (s s' : Sheet) : Prop :=
  ∀ a v, cache_of s a = Some v → cache_of s' a = Some v.

(** [looks_up_only cells t]: the lookups of the run [t] go to positions of
    [cells], whatever the answers. *)
Fixpoint looks_up_only (cells : list Position) (t : Exec double) : Prop :=
  match t with
  | Lookup position k => position ∈ cells ∧ ∀ d, looks_up_only cells (k d)
  | _ => True
  end.

(** The positions the formula of a value refers to. *)
Definition refs_of (value : option CellValue) : list Position :=
  match TryInterpretAsFormula value with
  | Some (formula, _) => Formula_GetReferencedCells formula
  | None => []
  end.

(** [ref_edge s a b]: the formula of the cell at [a] refers to [b]. *)
Definition ref_edge (s : Sheet) (a b : Position) : Prop :=
  ∃ c, s !! a = Some c ∧ b ∈ refs_of (value_ c).

(** [out_edge s a b]: [b] is in the descending set of the cell at [a]. *)
Definition out_edge (s : Sheet) (a b : Position) : Prop :=
  ∃ c, s !! a = Some c ∧ b ∈ descending_cells_ c.

(** [in_edge s b a]: [a] is in the ascending set of the cell at [b]. *)
Definition in_edge (s : Sheet) (b a : Position) : Prop :=
  ∃ c, s !! b = Some c ∧ a ∈ ascending_cells_ c.

(** The number of cells a search has not visited yet. *)
Definition unvisited (s : Sheet) (visited : list Position) : nat :=
  size (dom s ∖ list_to_set visited : gset Position).

(** Every reference of a formula in the sheet leads to a cell at a valid
    position: no lookup of the searches throws or returns null. *)
Definition refs_present (s : Sheet) (positions : list Position) : Prop :=
  ∀ r, r ∈ positions → is_Some (s !! r) ∧ IsValid r = true.

Definition refs_closed (s : Sheet) : Prop :=
  ∀ a b, ref_edge s a b → is_Some (s !! b) ∧ IsValid b = true.

(** What a negative answer leaves behind: the visited set has grown, it
    holds the positions searched from, none of which is the reference, and
    every cell added to it has its references in it, away from the
    reference. *)
Definition searched (s : Sheet) (reference : Position)
    (positions visited visited' : list Position) : Prop :=
  (∀ x, x ∈ visited → x ∈ visited') ∧
  (∀ x, x ∈ positions → x ∈ visited' ∧ x ≠ reference) ∧
  (∀ n, n ∈ visited' → n ∉ visited →
     ∀ m, ref_edge s n m → m ∈ visited' ∧ m ≠ reference).

(** The ascending cells of every cell exist. *)
Definition dependents_present (s : Sheet) : Prop :=
  ∀ b a, in_edge s b a → is_Some (s !! a).

(** The invariants of the data model: the cells sit at valid positions,
    the outgoing edges are the references of the formulas, the two edge
    sets mirror each other, and no cell reaches itself. *)
Record Inv (s : Sheet) : Prop := {
  inv_valid : ∀ a, is_Some (s !! a) → IsValid a = true;
  inv_refs : ∀ a b, out_edge s a b ↔ ref_edge s a b;
  inv_symmetric : ∀ a b, out_edge s a b ↔ in_edge s b a;
  inv_acyclic : ∀ a, ¬ tc (out_edge s) a a
}.

End Engine.

Abbreviation Sheet := (gmap Position Cell).

(** ** A small instance of the collaborators

    Integers for numbers, sums of cells and literals for formulas.  It
    serves the concrete runs below. *)
Module Demo.

Inductive expr :=
  | Num (n : Z)
  | CellRef (position : Position)
  | Add (lhs rhs : expr).

Fixpoint exec (e : expr) (k : Z → Exec Z) : Exec Z :=
  match e with
  | Num n => k n
  | CellRef position => Lookup position k
  | Add lhs rhs => exec lhs (λ x, exec rhs (λ y, k (x + y)))
  end.

(** The cells in the order they occur in the formula. *)
Fixpoint cells (e : expr) : list Position :=
  match e with
  | Num _ => []
  | CellRef position => [position]
  | Add lhs rhs => cells lhs ++ cells rhs
  end.

Definition is_digit (c : ascii) : bool := in_range "0" "9" c.
Definition is_letter (c : ascii) : bool := in_range "A" "Z" c.
Definition digit_value (c : ascii) : Z := Z.of_nat (nat_of_ascii c) - 48.

(** The number written by the leading digits of a text. *)
Fixpoint digits (acc : Z) (text : string) : Z :=
  match text with
  | String c rest => if is_digit c then digits (10 * acc + digit_value c) rest else acc
  | EmptyString => acc
  end.

Fixpoint all_digits (text : string) : bool :=
  match text with
  | String c rest => is_digit c && all_digits rest
  | EmptyString => true
  end.

(** [std::stod] on integers: an optional minus sign and the leading
    digits; without a digit it throws.  The numbers of this instance are
    integers, so what follows the leading digits, a fraction included, is
    dropped. *)
Definition stod_Z (text : string) : option Z :=
  match text with
  | String "-" (String c rest) =>
      if is_digit c then Some (- digits 0 (String c rest)) else None
  | String c _ => if is_digit c then Some (digits 0 text) else None
  | EmptyString => None
  end.

(** One operand: a letter and a row number, or a literal. *)
Definition parse_operand (text : string) : option expr :=
  match text with
  | String c (String d rest) =>
      if is_letter c && is_digit d && all_digits rest then
        Some (CellRef (mkPosition (digits 0 (String d rest) - 1)
                                  (Z.of_nat (nat_of_ascii c) - 65)))
      else if all_digits text then Some (Num (digits 0 text)) else None
  | String c EmptyString => if is_digit c then Some (Num (digit_value c)) else None
  | EmptyString => None
  end.

(** Operands separated by plus signs; [operand] is the text of the
    operand read so far, in reverse. *)
Fixpoint parse_sum (operand : string) (text : string) : option expr :=
  match text with
  | EmptyString => parse_operand (String.rev operand)
  | String "+" rest =>
      match parse_operand (String.rev operand), parse_sum "" rest with
      | Some lhs, Some rhs => Some (Add lhs rhs)
      | _, _ => None
      end
  | String c rest => parse_sum (String c operand) rest
  end.

(** The decimal digits of a number that is not negative, in front of
    [acc]. *)
Fixpoint print_digits (fuel : nat) (n : Z) (acc : string) : string :=
  match fuel with
  | O => acc
  | S fuel' =>
      let acc' := String (ascii_of_nat (Z.to_nat (n mod 10 + 48))) acc in
      if n <? 10 then acc' else print_digits fuel' (n / 10) acc'
  end.

Definition print_Z (n : Z) : string :=
  if n <? 0 then "-" +:+ print_digits (S (Z.to_nat (Z.log2 (- n)))) (- n) ""
  else print_digits (S (Z.to_nat (Z.log2 n))) n "".

Fixpoint print (e : expr) : string :=
  match e with
  | Num n => print_Z n
  | CellRef position =>
      String (ascii_of_nat (Z.to_nat (col position + 65))) (print_Z (row position + 1))
  | Add lhs rhs => print lhs +:+ "+" +:+ print rhs
  end.

#[export] Instance collaborators : Collaborators := {|
  double := Z;
  zero := 0;
  stod := stod_Z;
  FormulaAST := expr;
  ParseFormulaAST := parse_sum "";
  GetCells := cells;
  Execute := λ e, exec e Result;
  PrintFormula := print;
  MAX_ROWS := 16384;
  MAX_COLS := 16384
|}.

Definition A1 : Position := mkPosition 0 0.
Definition B1 : Position := mkPosition 0 1.
Definition C1 : Position := mkPosition 0 2.
Definition D1 : Position := mkPosition 0 3.

(** The sheet after A1 is set to the text 1 and B1 to the formula A1. *)
Definition two_cells : list Operation := [SetCell A1 "1"; SetCell B1 "=A1"].

Definition formula_A1 : Formula :=
  {| ast_ := CellRef A1; referenced_cells_ := [A1] |}.

Definition formula_B1 : Formula :=
  {| ast_ := CellRef B1; referenced_cells_ := [B1] |}.

Definition cell_A1 : Cell :=
  {| value_ := Some (TextCellValue "1");
     descending_cells_ := []; ascending_cells_ := [B1] |}.

Definition cell_B1 : Cell :=
  {| value_ := Some (FormulaCellValue formula_A1 None);
     descending_cells_ := [A1]; ascending_cells_ := [] |}.

Definition two_cells_sheet : Sheet := <[B1 := cell_B1]> (<[A1 := cell_A1]> ∅).

(** The sheet of [two_cells] after A1 is set to the text 2. *)
Definition cell_A1_edited : Cell :=
  {| value_ := Some (TextCellValue "2");
     descending_cells_ := []; ascending_cells_ := [B1] |}.

Definition two_cells_edited : Sheet :=
  <[B1 := cell_B1]> (<[A1 := cell_A1_edited]> ∅).

(** The sheet of [two_cells] after B1 is read. *)
Definition cell_B1_read : Cell :=
  {| value_ := Some (FormulaCellValue formula_A1 (Some 1));
     descending_cells_ := [A1]; ascending_cells_ := [] |}.

Definition two_cells_read : Sheet :=
  <[B1 := cell_B1_read]> (<[A1 := cell_A1]> ∅).

(** A cell whose formula refers to a position above the first row. *)
Definition A0 : Position := mkPosition (-1) 0.

Definition formula_A0 : Formula :=
  {| ast_ := CellRef A0; referenced_cells_ := [A0] |}.

Definition dangling_sheet : Sheet :=
  {[ A1 := {| value_ := Some (FormulaCellValue formula_A0 None);
              descending_cells_ := [A0]; ascending_cells_ := [] |} ]}.

(** The sheet after B1 is set to the text x, and the formula A1+B1. *)
Definition text_B1 : list Operation := [SetCell B1 "x"].

Definition text_B1_sheet : Sheet :=
  {[ B1 := {| value_ := Some (TextCellValue "x");
              descending_cells_ := []; ascending_cells_ := [] |} ]}.

Definition formula_A1_B1 : Formula :=
  {| ast_ := Add (CellRef A1) (CellRef B1); referenced_cells_ := [A1; B1] |}.

(** The formula A1+A1+B1, whose tree lists A1, A1, B1. *)
Definition formula_A1_A1_B1 : Formula :=
  {| ast_ := Add (CellRef A1) (Add (CellRef A1) (CellRef B1));
     referenced_cells_ := [A1; B1] |}.

(** Two formulas over two texts, B1 over A1 and D1 over C1, both read; then
    C1 is set to the text 7. *)
Definition four_cells : list Operation :=
  [SetCell A1 "1"; SetCell B1 "=A1"; SetCell C1 "5"; SetCell D1 "=C1";
   GetValue B1; GetValue D1].

Definition formula_C1 : Formula :=
  {| ast_ := CellRef C1; referenced_cells_ := [C1] |}.

Definition cell_C1 (text : string) : Cell :=
  {| value_ := Some (TextCellValue text);
     descending_cells_ := []; ascending_cells_ := [D1] |}.

Definition cell_D1 (cache : option Z) : Cell :=
  {| value_ := Some (FormulaCellValue formula_C1 cache);
     descending_cells_ := [C1]; ascending_cells_ := [] |}.

Definition four_cells_sheet : Sheet :=
  <[D1 := cell_D1 (Some 5)]> (<[C1 := cell_C1 "5"]> two_cells_read).

Definition four_cells_edited : Sheet :=
  <[D1 := cell_D1 None]> (<[C1 := cell_C1 "7"]> two_cells_read).

(** Three formulas over A1, D1 set last and C1 reading D1; every formula is
    read once, then A1 is edited. *)
Definition stale_trace : list Operation :=
  [SetCell A1 "1"; SetCell B1 "=A1"; SetCell D1 "5"; SetCell C1 "=A1+D1";
   SetCell D1 "=A1"; GetValue B1; GetValue C1; GetValue D1; SetCell A1 "2"].

End Demo.

(** * Properties *)

Section EngineFacts.
Context `{Collaborators}.

Implicit Types (s : Sheet) (self position : Position) (c this : Cell).

Lemma with_cache_idem (x y : option double) c :
  with_cache x (with_cache y c) = with_cache x c.
Proof. destruct c as [[[| |f o]|] d a]; reflexivity. Qed.

Lemma skeleton_alter_cache (x : option double) position s :
  skeleton (alter (with_cache x) position s) = skeleton s.
Proof.
  apply map_eq; intros q. unfold skeleton.
  rewrite !lookup_fmap, lookup_alter.
  case_decide; [subst|done].
  destruct (s !! q); simpl; [|done]. by rewrite with_cache_idem.
Qed.

Lemma skeleton_lookup s1 s2 position :
  skeleton s1 = skeleton s2 →
  with_cache None <$> s1 !! position = with_cache None <$> s2 !! position.
Proof. intros E. unfold skeleton in E. by rewrite <- !lookup_fmap, E. Qed.

Lemma skeleton_is_Some s1 s2 position :
  skeleton s1 = skeleton s2 → is_Some (s1 !! position) → is_Some (s2 !! position).
Proof.
  intros E [c Hc]. apply (skeleton_lookup _ _ position) in E.
  rewrite Hc in E. destruct (s2 !! position); [eauto|done].
Qed.

Lemma skeleton_size s : size (skeleton s) = size s.
Proof. unfold skeleton. apply map_size_fmap. Qed.

(** ** Evaluation changes caches only *)

Lemma run_Execute_skeleton lookup :
  (∀ position s o s', lookup position s = o → state_after o = Some s' →
     skeleton s' = skeleton s) →
  ∀ t s o s', run_Execute lookup t s = o → state_after o = Some s' →
    skeleton s' = skeleton s.
Proof.
  intros Hl t. induction t as [d|e|position k IH]; intros s o s' <-; simpl.
  - by intros [= ->].
  - by intros [= ->].
  - destruct (lookup position s) as [d s1| e s1| |] eqn:E; simpl; try done.
    + intros Hs'. rewrite (IH d s1 _ s' eq_refl Hs').
      by apply (Hl position s _ s1 E).
    + intros [= <-]. by apply (Hl position s _ s1 E).
Qed.

Lemma get_value_skeleton getv :
  (∀ position s o s', getv position s = o → state_after o = Some s' →
     skeleton s' = skeleton s) →
  ∀ position s o s', get_value getv position s = o → state_after o = Some s' →
    skeleton s' = skeleton s.
Proof.
  intros Hg position s o s' <-. unfold get_value.
  destruct (Sheet_GetCell s position) as [[cell|]|e]; simpl.
  - destruct (getv position s) as [v s1| e s1| |] eqn:E; simpl; try done.
    + destruct (CellValueGetter v); simpl; intros [= <-];
        by apply (Hg position s _ s1 E).
    + intros [= <-]. by apply (Hg position s _ s1 E).
  - by intros [= ->].
  - by intros [= ->].
Qed.

Lemma Formula_Evaluate_skeleton getv f :
  (∀ position s o s', getv position s = o → state_after o = Some s' →
     skeleton s' = skeleton s) →
  ∀ s o s', Formula_Evaluate getv f s = o → state_after o = Some s' →
    skeleton s' = skeleton s.
Proof.
  intros Hg s o s' <-. unfold Formula_Evaluate.
  destruct (run_Execute (get_value getv) (Execute (ast_ f)) s)
    as [d s1| e s1| |] eqn:E; simpl; try done.
  - intros [= <-].
    by apply (run_Execute_skeleton _ (get_value_skeleton _ Hg) _ _ _ _ E).
  - destruct e; simpl; intros [= <-];
      by apply (run_Execute_skeleton _ (get_value_skeleton _ Hg) _ _ _ _ E).
Qed.

Lemma Cell_GetValue_skeleton fuel self s o s' :
  Cell_GetValue fuel self s = o → state_after o = Some s' →
  skeleton s' = skeleton s.
Proof.
  revert self s o s'. induction fuel as [|fuel IH]; intros self s o s' <-; simpl.
  - done.
  - destruct (s !! self) as [this|]; [|done].
    destruct (value_ this) as [[| text | formula [v|]]|]; simpl;
      try done; try by intros [= ->].
    destruct (Formula_Evaluate (Cell_GetValue fuel) formula s)
      as [[value|error] s1| e s1| |] eqn:E; simpl; try done.
    + intros [= <-]. rewrite skeleton_alter_cache.
      by apply (Formula_Evaluate_skeleton _ _ IH _ _ _ E).
    + intros [= <-]. by apply (Formula_Evaluate_skeleton _ _ IH _ _ _ E).
    + intros [= <-]. by apply (Formula_Evaluate_skeleton _ _ IH _ _ _ E).
Qed.

(** ** The edge sets *)

Lemma elem_of_set_insert (x y : Position) l :
  y ∈ set_insert x l ↔ y = x ∨ y ∈ l.
Proof.
  unfold set_insert. case_decide; [|by rewrite elem_of_cons].
  split; [by right|]. by intros [->|].
Qed.

Lemma elem_of_set_erase (x y : Position) l :
  y ∈ set_erase x l ↔ y ∈ l ∧ y ≠ x.
Proof. unfold set_erase. rewrite list_elem_of_filter. tauto. Qed.

Lemma set_erase_idem (x : Position) l : set_erase x (set_erase x l) = set_erase x l.
Proof.
  unfold set_erase. induction l as [|y l IH]; [done|].
  rewrite filter_cons. case_decide; [|done].
  rewrite !filter_cons. case_decide; [|done]. by f_equal.
Qed.

Lemma set_empty_nil l : set_empty l = true → l = [].
Proof. by destruct l. Qed.

(** Edges and references read the skeleton only. *)
Lemma skeleton_out_edge s1 s2 a b :
  skeleton s1 = skeleton s2 → out_edge s1 a b → out_edge s2 a b.
Proof.
  intros E [c [Hc Hb]]. apply (skeleton_lookup _ _ a) in E. rewrite Hc in E.
  destruct (s2 !! a) as [c2|] eqn:E2; [|done]. exists c2. split; [done|].
  injection E as E. apply (f_equal descending_cells_) in E.
  destruct c as [[[| |f o]|] d x], c2 as [[[| |f2 o2]|] d2 x2]; simpl in *; by subst.
Qed.

Lemma skeleton_in_edge s1 s2 a b :
  skeleton s1 = skeleton s2 → in_edge s1 a b → in_edge s2 a b.
Proof.
  intros E [c [Hc Hb]]. apply (skeleton_lookup _ _ a) in E. rewrite Hc in E.
  destruct (s2 !! a) as [c2|] eqn:E2; [|done]. exists c2. split; [done|].
  injection E as E. apply (f_equal ascending_cells_) in E.
  destruct c as [[[| |f o]|] d x], c2 as [[[| |f2 o2]|] d2 x2]; simpl in *; by subst.
Qed.

Lemma skeleton_ref_edge s1 s2 a b :
  skeleton s1 = skeleton s2 → ref_edge s1 a b → ref_edge s2 a b.
Proof.
  intros E [c [Hc Hb]]. apply (skeleton_lookup _ _ a) in E. rewrite Hc in E.
  destruct (s2 !! a) as [c2|] eqn:E2; [|done]. exists c2. split; [done|].
  injection E as E. apply (f_equal value_) in E.
  destruct c as [[[| |f o]|] d x], c2 as [[[| |f2 o2]|] d2 x2];
    simpl in *; try done; by simplify_eq.
Qed.

Lemma tc_impl_edges (R1 R2 : relation Position) a b :
  (∀ x y, R1 x y → R2 x y) → tc R1 a b → tc R2 a b.
Proof.
  intros HR. induction 1 as [x y Hxy|x y z Hxy _ IH].
  - by apply tc_once, HR.
  - eapply tc_l; [by apply HR|done].
Qed.

Lemma rtc_impl_edges (R1 R2 : relation Position) a b :
  (∀ x y, R1 x y → R2 x y) → rtc R1 a b → rtc R2 a b.
Proof.
  intros HR. induction 1 as [|x y z Hxy _ IH]; [done|].
  eapply rtc_l; [by apply HR|done].
Qed.

Lemma Inv_skeleton s1 s2 : skeleton s1 = skeleton s2 → Inv s1 → Inv s2.
Proof.
  intros E [Hv Hr Hs Ha]. assert (E' : skeleton s2 = skeleton s1) by done.
  split.
  - intros a Ha2. apply Hv. by eapply skeleton_is_Some.
  - intros a b. split; intros Hab.
    + eapply skeleton_ref_edge; [exact E|]. apply Hr.
      by eapply skeleton_out_edge.
    + eapply skeleton_out_edge; [exact E|]. apply Hr.
      by eapply skeleton_ref_edge.
  - intros a b. split; intros Hab.
    + eapply skeleton_in_edge; [exact E|]. apply Hs.
      by eapply skeleton_out_edge.
    + eapply skeleton_out_edge; [exact E|]. apply Hs.
      by eapply skeleton_in_edge.
  - intros a Hc. apply (Ha a).
    eapply tc_impl_edges; [|exact Hc]. intros x y. by apply skeleton_out_edge.
Qed.

(** ** Invalidation changes caches only and never throws *)

Lemma InvalidateReferencedCellsCache_loop_skeleton descend :
  (∀ cell st o st', descend cell st = o → state_after o = Some st' →
     skeleton st'.2 = skeleton st.2) →
  ∀ cells st o st',
    InvalidateReferencedCellsCache_loop descend cells st = o →
    state_after o = Some st' → skeleton st'.2 = skeleton st.2.
Proof.
  intros Hd cells. induction cells as [|cell rest IH]; intros st o st' <-; simpl.
  - by intros [= ->].
  - case_decide; [by intros [= ->]|].
    destruct (st.2 !! cell) as [c|]; [|done].
    destruct (TryInterpretAsFormula (value_ c)) as [[f [v|]]|].
    + destruct (descend cell (cell :: st.1, alter (with_cache None) cell st.2))
        as [[] st1| e st1| |] eqn:E; simpl; try done.
      * intros Hs. rewrite (IH st1 _ st' eq_refl Hs).
        rewrite (Hd _ _ _ st1 E eq_refl). simpl. apply skeleton_alter_cache.
      * intros [= <-]. rewrite (Hd _ _ _ st1 E eq_refl). simpl.
        apply skeleton_alter_cache.
    + intros Hs. by rewrite (IH (cell :: st.1, st.2) _ st' eq_refl Hs).
    + intros Hs. by rewrite (IH (cell :: st.1, st.2) _ st' eq_refl Hs).
Qed.

Lemma InvalidateReferencedCellsCache_skeleton fuel self st o st' :
  InvalidateReferencedCellsCache fuel self st = o →
  state_after o = Some st' → skeleton st'.2 = skeleton st.2.
Proof.
  revert self st o st'. induction fuel as [|fuel IH]; intros self st o st' <-; simpl.
  - done.
  - destruct (st.2 !! self) as [this|]; [|done].
    intros Hs.
    by apply (InvalidateReferencedCellsCache_loop_skeleton _ IH _ _ _ _ eq_refl Hs).
Qed.

Lemma InvalidateReferencedCellsCache_loop_no_throw descend :
  (∀ cell st e st', descend cell st ≠ Throw e st') →
  ∀ cells st e st',
    InvalidateReferencedCellsCache_loop descend cells st ≠ Throw e st'.
Proof.
  intros Hd cells. induction cells as [|cell rest IH]; intros st e st'; simpl.
  - done.
  - case_decide; [done|].
    destruct (st.2 !! cell) as [c|]; [|done].
    destruct (TryInterpretAsFormula (value_ c)) as [[f [v|]]|]; try apply IH.
    destruct (descend cell (cell :: st.1, alter (with_cache None) cell st.2))
      as [[] st1| e1 st1| |] eqn:E; try done; try apply IH.
    by apply Hd in E.
Qed.

Lemma InvalidateReferencedCellsCache_no_throw fuel self st e st' :
  InvalidateReferencedCellsCache fuel self st ≠ Throw e st'.
Proof.
  revert self st e st'. induction fuel as [|fuel IH]; intros self st e st'; simpl.
  - done.
  - destruct (st.2 !! self) as [this|]; [|done].
    by apply InvalidateReferencedCellsCache_loop_no_throw.
Qed.

Lemma invalidate_dependents_skeleton self s s' :
  invalidate_dependents self s = Ret () s' → skeleton s' = skeleton s.
Proof.
  unfold invalidate_dependents. destruct (s !! self) as [this|]; [|done].
  destruct (set_empty (ascending_cells_ this)); [by intros [= ->]|].
  destruct (InvalidateReferencedCellsCache (S (size s)) self ([self], s))
    as [[] st| e st| |] eqn:E; try done.
  intros [= <-].
  by apply (InvalidateReferencedCellsCache_skeleton _ _ _ _ st E).
Qed.

Lemma invalidate_dependents_no_throw self s e s' :
  invalidate_dependents self s ≠ Throw e s'.
Proof.
  unfold invalidate_dependents. destruct (s !! self) as [this|]; [|done].
  destruct (set_empty (ascending_cells_ this)); [done|].
  destruct (InvalidateReferencedCellsCache (S (size s)) self ([self], s))
    as [[] st| e1 st| |] eqn:E; try done.
  by apply InvalidateReferencedCellsCache_no_throw in E.
Qed.

(** ** Detaching the old edges *)

Lemma foldl_alter_lookup (g : Cell → Cell) l s b :
  (∀ c, g (g c) = g c) →
  foldl (λ s1 cell, alter g cell s1) s l !! b
  = if decide (b ∈ l) then g <$> s !! b else s !! b.
Proof.
  intros Hg. revert s. induction l as [|x l IH]; intros s; simpl.
  - done.
  - rewrite IH. destruct (decide (b = x)) as [->|Hne].
    + rewrite lookup_alter_eq, (decide_True (P := x ∈ x :: l)); [|by left].
      case_decide; [|done].
      destruct (s !! x); simpl; [|done]. by rewrite Hg.
    + rewrite lookup_alter_ne by done.
      destruct (decide (b ∈ l)).
      * rewrite decide_True; [done|by right].
      * rewrite decide_False; [done|]. rewrite elem_of_cons. tauto.
Qed.

Lemma RemoveOldConnections_lookup self s this a :
  s !! self = Some this →
  RemoveOldConnections self s !! a
  = (λ c, mkCell (value_ c)
            (if decide (a = self) then [] else descending_cells_ c)
            (if decide (a ∈ descending_cells_ this)
             then set_erase self (ascending_cells_ c) else ascending_cells_ c))
    <$> s !! a.
Proof.
  intros Hs. unfold RemoveOldConnections. rewrite Hs.
  assert (Hg : ∀ c, (λ c, with_ascending (set_erase self (ascending_cells_ c)) c)
                      ((λ c, with_ascending (set_erase self (ascending_cells_ c)) c) c)
                    = (λ c, with_ascending (set_erase self (ascending_cells_ c)) c) c).
  { intros c. unfold with_ascending. simpl. by rewrite set_erase_idem. }
  destruct (decide (a = self)) as [->|Hne].
  - rewrite lookup_alter_eq, foldl_alter_lookup, Hs by done.
    by case_decide.
  - rewrite lookup_alter_ne, foldl_alter_lookup by done.
    destruct (s !! a) as [[v d x]|]; by case_decide.
Qed.

Lemma remove_if_connected_spec self s this :
  s !! self = Some this →
  (∀ b, in_edge s b self → out_edge s self b) →
  (∀ a, value_ <$> remove_if_connected self s !! a = value_ <$> s !! a) ∧
  (∀ a b, out_edge (remove_if_connected self s) a b ↔ out_edge s a b ∧ a ≠ self) ∧
  (∀ b a, in_edge (remove_if_connected self s) b a ↔ in_edge s b a ∧ a ≠ self).
Proof.
  intros Hs Hsym. unfold remove_if_connected. rewrite Hs.
  destruct (set_empty (descending_cells_ this)) eqn:Hd.
  - apply set_empty_nil in Hd. split; [done|]. split.
    + intros a b. split; [|tauto]. intros Hab. split; [done|].
      intros ->. destruct Hab as [c [Hc Hb]]. simplify_eq.
      rewrite Hd in Hb. by apply elem_of_nil in Hb.
    + intros b a. split; [|tauto]. intros Hba. split; [done|].
      intros ->. destruct (Hsym b Hba) as [c [Hc Hb]]. simplify_eq.
      rewrite Hd in Hb. by apply elem_of_nil in Hb.
  - split; [|split].
    + intros a. rewrite (RemoveOldConnections_lookup _ _ this) by done.
      by destruct (s !! a).
    + intros a b. unfold out_edge.
      setoid_rewrite (RemoveOldConnections_lookup self s this a Hs).
      split.
      * intros [c [Hc Hb]]. destruct (s !! a) as [c0|]; simplify_eq/=.
        case_decide; [by apply elem_of_nil in Hb|]. eauto.
      * intros [[c [Hc Hb]] Hne]. rewrite Hc. simpl. eexists. split; [done|].
        simpl. by rewrite decide_False.
    + intros b a. unfold in_edge.
      setoid_rewrite (RemoveOldConnections_lookup self s this b Hs).
      split.
      * intros [c [Hc Ha]]. destruct (s !! b) as [c0|] eqn:Hb; simplify_eq/=.
        case_decide.
        -- apply elem_of_set_erase in Ha as [Ha Hne]. eauto.
        -- split; [eauto|]. intros ->.
           destruct (Hsym b) as [c [Hc Hbd]]; [by exists c0|]. by simplify_eq.
      * intros [[c [Hc Ha]] Hne]. rewrite Hc. simpl. eexists. split; [done|].
        simpl. case_decide; [|done]. by apply elem_of_set_erase.
Qed.

(** ** Attaching the new edges *)

Lemma connect_spec self position s :
  is_Some (s !! self) → is_Some (s !! position) →
  let s1 :=
    alter (λ c, with_ascending (set_insert self (ascending_cells_ c)) c) position
      (alter (λ c, with_descending (set_insert position (descending_cells_ c)) c)
         self s) in
  (∀ a, value_ <$> s1 !! a = value_ <$> s !! a) ∧
  (∀ a b, out_edge s1 a b ↔ out_edge s a b ∨ (a = self ∧ b = position)) ∧
  (∀ b a, in_edge s1 b a ↔ in_edge s b a ∨ (a = self ∧ b = position)).
Proof.
  intros [cs Hcs] [cp Hcp] s1.
  assert (Hl : ∀ a, s1 !! a =
    (λ c, mkCell (value_ c)
            (if decide (a = self) then set_insert position (descending_cells_ c)
             else descending_cells_ c)
            (if decide (a = position) then set_insert self (ascending_cells_ c)
             else ascending_cells_ c)) <$> s !! a).
  { intros a. unfold s1. rewrite !lookup_alter.
    repeat case_decide; simplify_eq;
      match goal with |- context [s !! ?q] => by destruct (s !! q) as [[v d x]|] end. }
  split; [|split].
  - intros a. rewrite Hl. by destruct (s !! a).
  - intros a b. unfold out_edge. rewrite Hl. split.
    + intros [c [Hc Hb]]. destruct (s !! a) as [c0|]; simplify_eq/=.
      case_decide; [|eauto].
      apply elem_of_set_insert in Hb as [->|Hb]; eauto.
    + intros [[c [Hc Hb]]|[-> ->]].
      * rewrite Hc. eexists. split; [done|]. simpl.
        case_decide; [|done]. apply elem_of_set_insert. by right.
      * rewrite Hcs. eexists. split; [done|]. simpl.
        rewrite decide_True by done. apply elem_of_set_insert. by left.
  - intros b a. unfold in_edge. rewrite Hl. split.
    + intros [c [Hc Ha]]. destruct (s !! b) as [c0|]; simplify_eq/=.
      case_decide; [|eauto].
      apply elem_of_set_insert in Ha as [->|Ha]; eauto.
    + intros [[c [Hc Ha]]|[-> ->]].
      * rewrite Hc. eexists. split; [done|]. simpl.
        case_decide; [|done]. apply elem_of_set_insert. by right.
      * rewrite Hcp. eexists. split; [done|]. simpl.
        rewrite decide_True by done. apply elem_of_set_insert. by left.
Qed.

Lemma value_lookup_is_Some s1 s2 a :
  value_ <$> s1 !! a = value_ <$> s2 !! a → is_Some (s2 !! a) → is_Some (s1 !! a).
Proof. intros E [c Hc]. rewrite Hc in E. destruct (s1 !! a); [eauto|done]. Qed.

Lemma EstablishNewConnections_loop_spec self positions s s' :
  is_Some (s !! self) →
  EstablishNewConnections_loop self positions s = Ret () s' →
  (∀ r, r ∈ positions → is_Some (s !! r) ∧ IsValid r = true) ∧
  (∀ a, value_ <$> s' !! a = value_ <$> s !! a) ∧
  (∀ a b, out_edge s' a b ↔ out_edge s a b ∨ (a = self ∧ b ∈ positions)) ∧
  (∀ b a, in_edge s' b a ↔ in_edge s b a ∨ (a = self ∧ b ∈ positions)).
Proof.
  revert s. induction positions as [|position rest IH]; intros s Hself; simpl.
  - intros [= <-]. split; [|split; [|split]].
    + intros r Hr. by apply elem_of_nil in Hr.
    + done.
    + intros a b. split; [by left|]. intros [?|[_ Hb]]; [done|].
      by apply elem_of_nil in Hb.
    + intros b a. split; [by left|]. intros [?|[_ Hb]]; [done|].
      by apply elem_of_nil in Hb.
  - unfold Cell_GetCell, Sheet_GetCell.
    destruct (IsValid position) eqn:Hv; [|done].
    destruct (s !! position) as [cp|] eqn:Hp; [|done].
    intros Hloop.
    destruct (connect_spec self position s Hself) as (Hval1 & Hout1 & Hin1);
      [by rewrite Hp|].
    apply IH in Hloop as (Hpres & Hval & Hout & Hin).
    2:{ eapply value_lookup_is_Some; [apply Hval1|done]. }
    split; [|split; [|split]].
    + intros r [->|Hr]%elem_of_cons; [by rewrite Hp|].
      destruct (Hpres r Hr) as [Hr1 Hr2]. split; [|done].
      eapply value_lookup_is_Some; [symmetry; apply Hval1|done].
    + intros a. by rewrite Hval, Hval1.
    + intros a b. rewrite Hout, Hout1, elem_of_cons. tauto.
    + intros b a. rewrite Hin, Hin1, elem_of_cons. tauto.
Qed.

Lemma EstablishNewConnections_loop_throw self positions s e s' :
  EstablishNewConnections_loop self positions s = Throw e s' →
  e = InvalidPositionException "".
Proof.
  revert s. induction positions as [|position rest IH]; intros s; simpl; [done|].
  unfold Cell_GetCell, Sheet_GetCell.
  destruct (IsValid position); [|by intros [= <- _]].
  destruct (s !! position); [apply IH|done].
Qed.

Lemma establish_if_formula_spec self value s s' :
  is_Some (s !! self) →
  establish_if_formula self value s = Ret () s' →
  (∀ r, r ∈ refs_of value → is_Some (s !! r) ∧ IsValid r = true) ∧
  (∀ a, value_ <$> s' !! a = value_ <$> s !! a) ∧
  (∀ a b, out_edge s' a b ↔ out_edge s a b ∨ (a = self ∧ b ∈ refs_of value)) ∧
  (∀ b a, in_edge s' b a ↔ in_edge s b a ∨ (a = self ∧ b ∈ refs_of value)).
Proof.
  intros Hself. unfold establish_if_formula, refs_of.
  destruct (TryInterpretAsFormula value) as [[f o]|].
  - by apply EstablishNewConnections_loop_spec.
  - intros [= <-]. split; [|split; [|split]].
    + intros r Hr. by apply elem_of_nil in Hr.
    + done.
    + intros a b. split; [by left|]. intros [?|[_ Hb]]; [done|].
      by apply elem_of_nil in Hb.
    + intros b a. split; [by left|]. intros [?|[_ Hb]]; [done|].
      by apply elem_of_nil in Hb.
Qed.

(** ** The search for a circular dependency *)

Lemma unvisited_cons s x visited :
  is_Some (s !! x) → x ∉ visited →
  (unvisited s (x :: visited) < unvisited s visited)%nat.
Proof.
  intros Hx Hv. unfold unvisited. apply subset_size. split.
  - intros y. rewrite !elem_of_difference, !elem_of_list_to_set, elem_of_cons. tauto.
  - intros Hsub. specialize (Hsub x).
    rewrite !elem_of_difference, !elem_of_list_to_set, elem_of_cons, elem_of_dom in Hsub.
    tauto.
Qed.

Lemma unvisited_mono s visited visited' :
  (∀ x, x ∈ visited → x ∈ visited') →
  (unvisited s visited' ≤ unvisited s visited)%nat.
Proof.
  intros Hsub. unfold unvisited. apply subseteq_size.
  intros x. rewrite !elem_of_difference, !elem_of_list_to_set.
  intros [Hx Hv]. split; [done|]. intros Hv'. by apply Hv, Hsub.
Qed.

Section search.
Context (s : Sheet) (reference : Position).

Lemma HasCircularDependency_loop_mono descend :
  (∀ cur v b v', descend cur v = Ret b v' → ∀ x, x ∈ v → x ∈ v') →
  ∀ positions visited b v',
    HasCircularDependency_loop descend s reference positions visited = Ret b v' →
    ∀ x, x ∈ visited → x ∈ v'.
Proof.
  intros Hd positions. induction positions as [|position rest IH];
    intros visited b v'; simpl.
  - by intros [= _ <-].
  - destruct (Cell_GetCell s position) as [[cell|]|e]; try done.
    case_decide; [by intros [= _ <-]|].
    case_decide; [apply IH|].
    destruct (descend (value_ cell) (position :: visited)) as [[] v1| | |] eqn:E;
      try done.
    + intros [= _ <-] x Hx. eapply Hd; [exact E|by right].
    + intros Hl x Hx. eapply IH; [exact Hl|]. eapply Hd; [exact E|by right].
Qed.

Lemma HasCircularDependency_mono fuel current visited b v' :
  HasCircularDependency fuel s reference current visited = Ret b v' →
  ∀ x, x ∈ visited → x ∈ v'.
Proof.
  revert current visited b v'.
  induction fuel as [|fuel IH]; intros current visited b v'; simpl; [done|].
  destruct (TryInterpretAsFormula current) as [[f o]|]; [|by intros [= _ <-]].
  apply HasCircularDependency_loop_mono. intros cur v b1 v1. apply IH.
Qed.

(** A positive answer comes with a path to the reference. *)
Lemma HasCircularDependency_loop_sound descend :
  (∀ cell v v', descend (value_ cell) v = Ret true v' →
     ∃ r, r ∈ refs_of (value_ cell) ∧ rtc (ref_edge s) r reference) →
  ∀ positions visited v',
    HasCircularDependency_loop descend s reference positions visited = Ret true v' →
    ∃ r, r ∈ positions ∧ rtc (ref_edge s) r reference.
Proof.
  intros Hd positions. induction positions as [|position rest IH];
    intros visited v'; simpl; [done|].
  unfold Cell_GetCell, Sheet_GetCell.
  destruct (IsValid position); [|done].
  destruct (s !! position) as [cell|] eqn:Hp; [|done].
  case_decide as Href.
  { intros _. exists position. split; [by left|]. by subst. }
  assert (Hrest : ∀ v, HasCircularDependency_loop descend s reference rest v
                       = Ret true v' →
                  ∃ r, r ∈ position :: rest ∧ rtc (ref_edge s) r reference).
  { intros v Hl. destruct (IH _ _ Hl) as (r & Hr & Hpath).
    exists r. split; [by right|done]. }
  case_decide; [apply Hrest|].
  destruct (descend (value_ cell) (position :: visited)) as [[] v1| | |] eqn:E;
    try done; [|apply Hrest].
  intros _. destruct (Hd _ _ _ E) as (r & Hr & Hpath).
  exists position. split; [by left|].
  eapply rtc_l; [|exact Hpath]. by exists cell.
Qed.

Lemma HasCircularDependency_sound fuel current visited v' :
  HasCircularDependency fuel s reference current visited = Ret true v' →
  ∃ r, r ∈ refs_of current ∧ rtc (ref_edge s) r reference.
Proof.
  revert current visited v'.
  induction fuel as [|fuel IH]; intros current visited v'; simpl; [done|].
  unfold refs_of. destruct (TryInterpretAsFormula current) as [[f o]|]; [|done].
  apply HasCircularDependency_loop_sound. intros cell v v1. apply IH.
Qed.

Lemma HasCircularDependency_loop_complete descend :
  (∀ cell v v', descend (value_ cell) v = Ret false v' →
     searched s reference (refs_of (value_ cell)) v v') →
  ∀ positions visited v',
    HasCircularDependency_loop descend s reference positions visited = Ret false v' →
    searched s reference positions visited v'.
Proof.
  intros Hd positions. induction positions as [|position rest IH];
    intros visited v'; simpl.
  - intros [= <-]. split; [done|]. split.
    + intros x Hx. by apply elem_of_nil in Hx.
    + by intros n Hn Hn'.
  - unfold Cell_GetCell, Sheet_GetCell.
    destruct (IsValid position); [|done].
    destruct (s !! position) as [cell|] eqn:Hp; [|done].
    case_decide as Href; [done|].
    case_decide as Hvis.
    + intros Hl. destruct (IH _ _ Hl) as (Hmono & Hpos & Hnew).
      split; [done|]. split; [|done].
      intros x [->|Hx]%elem_of_cons; [|by apply Hpos].
      split; [by apply Hmono|done].
    + destruct (descend (value_ cell) (position :: visited)) as [[] v1| | |] eqn:E;
        try done.
      intros Hl. destruct (IH _ _ Hl) as (Hmono & Hpos & Hnew).
      destruct (Hd _ _ _ E) as (Hmono1 & Hpos1 & Hnew1).
      split; [|split].
      * intros x Hx. apply Hmono, Hmono1. by right.
      * intros x [->|Hx]%elem_of_cons; [|by apply Hpos].
        split; [|done]. apply Hmono, Hmono1. by left.
      * intros n Hn Hn' m Hm.
        destruct (decide (n ∈ v1)) as [Hn1|Hn1]; [|by eapply Hnew].
        destruct (decide (n = position)) as [->|Hne].
        -- destruct Hm as (c & Hc & Hm). simplify_eq.
           destruct (Hpos1 m Hm). split; [by apply Hmono|done].
        -- destruct (Hnew1 n Hn1) with (m := m) as [Hm1 Hm2]; [|done|].
           { rewrite elem_of_cons. tauto. }
           split; [by apply Hmono|done].
Qed.

Lemma HasCircularDependency_complete fuel current visited v' :
  HasCircularDependency fuel s reference current visited = Ret false v' →
  searched s reference (refs_of current) visited v'.
Proof.
  revert current visited v'.
  induction fuel as [|fuel IH]; intros current visited v'; simpl; [done|].
  unfold refs_of. destruct (TryInterpretAsFormula current) as [[f o]|].
  - apply HasCircularDependency_loop_complete. intros cell v v1. apply IH.
  - intros [= <-]. split; [done|]. split.
    + intros x Hx. by apply elem_of_nil in Hx.
    + by intros n Hn Hn'.
Qed.

(** With the references in place, the search returns. *)
Lemma HasCircularDependency_loop_returns fuel :
  refs_closed s →
  (∀ current visited, refs_present s (refs_of current) →
     (unvisited s visited < fuel)%nat →
     ∃ b v', HasCircularDependency fuel s reference current visited = Ret b v') →
  ∀ positions visited, refs_present s positions →
    (unvisited s visited ≤ fuel)%nat →
    ∃ b v', HasCircularDependency_loop (HasCircularDependency fuel s reference)
              s reference positions visited = Ret b v'.
Proof.
  intros Hclosed IHf positions. induction positions as [|position rest IH];
    intros visited Hpres Hfuel; simpl; [eauto|].
  unfold Cell_GetCell, Sheet_GetCell.
  destruct (Hpres position) as [[cell Hcell] Hvalid]; [by left|].
  rewrite Hvalid, Hcell.
  assert (Hrest : refs_present s rest).
  { intros r Hr. apply Hpres. by right. }
  case_decide; [eauto|]. case_decide as Hvis; [by apply IH|].
  pose proof (unvisited_cons s position visited (mk_is_Some _ _ Hcell) Hvis) as Hlt.
  destruct (IHf (value_ cell) (position :: visited)) as (b & v1 & E).
  { intros r Hr. apply (Hclosed position). by exists cell. }
  { lia. }
  rewrite E. destruct b; [eauto|]. apply IH; [done|].
  pose proof (unvisited_mono s _ _ (HasCircularDependency_mono _ _ _ _ _ E)). lia.
Qed.

Lemma HasCircularDependency_returns fuel current visited :
  refs_closed s → refs_present s (refs_of current) →
  (unvisited s visited < fuel)%nat →
  ∃ b v', HasCircularDependency fuel s reference current visited = Ret b v'.
Proof.
  intros Hclosed. revert current visited.
  induction fuel as [|fuel IH]; intros current visited Hpres Hfuel; simpl; [lia|].
  unfold refs_of in Hpres.
  destruct (TryInterpretAsFormula current) as [[f o]|]; [|eauto].
  apply HasCircularDependency_loop_returns; [done|done|done|lia].
Qed.

End search.

(** A search from the cell itself that finds nothing: the reference is out
    of reach of the positions searched from. *)
Lemma HasCircularDependency_unreachable fuel s self current visited :
  HasCircularDependency fuel s self current [self] = Ret false visited →
  ∀ r, r ∈ refs_of current → ¬ rtc (ref_edge s) r self.
Proof.
  intros Hsearch. apply HasCircularDependency_complete in Hsearch
    as (Hmono & Hpos & Hnew).
  assert (Hstay : ∀ x y, rtc (ref_edge s) x y →
                  x ∈ visited ∧ x ≠ self → y ∈ visited ∧ y ≠ self).
  { induction 1 as [|x y z Hxy _ IH]; [done|].
    intros [Hx Hne]. apply IH. apply (Hnew x Hx); [|done].
    rewrite elem_of_cons, elem_of_nil. tauto. }
  intros r Hr Hpath. by destruct (Hstay _ _ Hpath (Hpos r Hr)).
Qed.

(** ** The steps of [Cell::Set] *)

Lemma ref_edge_value s1 s2 a b :
  value_ <$> s1 !! a = value_ <$> s2 !! a → ref_edge s1 a b → ref_edge s2 a b.
Proof.
  intros E (c & Hc & Hb). rewrite Hc in E.
  destruct (s2 !! a) as [c2|] eqn:E2; simplify_eq/=. exists c2. split; [done|].
  by rewrite <- E.
Qed.

Lemma insert_with_value_edges self this v s :
  s !! self = Some this →
  let s1 := <[self := with_value v this]> s in
  (∀ a b, out_edge s1 a b ↔ out_edge s a b) ∧
  (∀ b a, in_edge s1 b a ↔ in_edge s b a) ∧
  (∀ a, is_Some (s1 !! a) ↔ is_Some (s !! a)) ∧
  (∀ a, a ≠ self → value_ <$> s1 !! a = value_ <$> s !! a) ∧
  (value_ <$> s1 !! self = Some v).
Proof.
  intros Hs s1.
  assert (Hl : ∀ a, s1 !! a = if decide (self = a) then Some (with_value v this)
                              else s !! a).
  { intros a. unfold s1. apply lookup_insert. }
  split; [|split; [|split; [|split]]].
  - intros a b. unfold out_edge. rewrite Hl. case_decide; [subst|done].
    rewrite Hs. split; intros (c & [= <-] & Hb); eexists; split; done.
  - intros b a. unfold in_edge. rewrite Hl. case_decide; [subst|done].
    rewrite Hs. split; intros (c & [= <-] & Hb); eexists; split; done.
  - intros a. rewrite Hl. case_decide; [subst|done]. rewrite Hs.
    split; intros _; eauto.
  - intros a Hne. rewrite Hl. by rewrite decide_False.
  - rewrite Hl. by rewrite decide_True.
Qed.

(** The graph after the value is swapped, the old edges are detached and
    the new ones attached. *)
Lemma Set_graph_steps self this tmp s s3 :
  s !! self = Some this →
  (∀ b, in_edge s b self → out_edge s self b) →
  establish_if_formula self (Some tmp)
    (remove_if_connected self (<[self := with_value (Some tmp) this]> s))
  = Ret () s3 →
  refs_present s (refs_of (Some tmp)) ∧
  (∀ a, is_Some (s3 !! a) ↔ is_Some (s !! a)) ∧
  (∀ a b, ref_edge s3 a b ↔
     (ref_edge s a b ∧ a ≠ self) ∨ (a = self ∧ b ∈ refs_of (Some tmp))) ∧
  (∀ a b, out_edge s3 a b ↔
     (out_edge s a b ∧ a ≠ self) ∨ (a = self ∧ b ∈ refs_of (Some tmp))) ∧
  (∀ b a, in_edge s3 b a ↔
     (in_edge s b a ∧ a ≠ self) ∨ (a = self ∧ b ∈ refs_of (Some tmp))).
Proof.
  intros Hself Hsym.
  set (s1 := <[self := with_value (Some tmp) this]> s).
  destruct (insert_with_value_edges self this (Some tmp) s Hself)
    as (Hout1 & Hin1 & Hpres1 & Hval1 & Hself1).
  fold s1 in Hout1, Hin1, Hpres1, Hval1, Hself1.
  assert (Hs1 : s1 !! self = Some (with_value (Some tmp) this)).
  { unfold s1. apply lookup_insert_eq. }
  destruct (remove_if_connected_spec self s1 _ Hs1) as (Hval2 & Hout2 & Hin2).
  { intros b. rewrite Hin1, Hout1. apply Hsym. }
  set (s2 := remove_if_connected self s1) in *.
  assert (Hself2 : is_Some (s2 !! self)).
  { eapply value_lookup_is_Some; [apply Hval2|]. by rewrite Hs1. }
  intros Hest.
  apply establish_if_formula_spec in Hest as (Hrefs & Hval3 & Hout3 & Hin3);
    [|done].
  assert (Hval : ∀ a, value_ <$> s3 !! a = value_ <$> s1 !! a).
  { intros a. by rewrite Hval3, Hval2. }
  assert (Hpres : ∀ a, is_Some (s3 !! a) ↔ is_Some (s !! a)).
  { intros a. rewrite <- Hpres1. split; apply value_lookup_is_Some; by rewrite Hval. }
  split; [|split; [|split; [|split]]].
  - intros r Hr. destruct (Hrefs r Hr) as [Hr1 Hr2]. split; [|done].
    apply Hpres1. eapply value_lookup_is_Some; [symmetry; apply Hval2|done].
  - done.
  - intros a b. destruct (decide (a = self)) as [->|Hne].
    + split.
      * intros (c & Hc & Hb). right. split; [done|].
        specialize (Hval self). rewrite Hc, Hself1 in Hval.
        simpl in Hval. injection Hval as Hval. by rewrite <- Hval.
      * intros [[_ ?]|[_ Hb]]; [done|].
        destruct Hself2 as [c2 Hc2]. specialize (Hval self).
        rewrite Hself1 in Hval. destruct (s3 !! self) as [c3|] eqn:Hc3; [|done].
        exists c3. split; [done|]. simpl in Hval. injection Hval as Hval.
        by rewrite Hval.
    + split.
      * intros Hab. left. split; [|done].
        eapply ref_edge_value; [|exact Hab]. rewrite Hval. by apply Hval1.
      * intros [[Hab _]|[? _]]; [|done].
        eapply ref_edge_value; [|exact Hab]. rewrite Hval. symmetry. by apply Hval1.
  - intros a b. rewrite Hout3, Hout2, Hout1. tauto.
  - intros b a. rewrite Hin3, Hin2, Hin1. tauto.
Qed.

(** What a successful [Set] did to the graph. *)
Lemma Cell_Set_steps self text s s' :
  (∀ b, in_edge s b self → out_edge s self b) →
  Cell_Set self text s = Ret () s' →
  ∃ tmp visited,
    is_Some (s !! self) ∧
    TryCreateCell text = Returns tmp ∧
    HasCircularDependency (S (size s)) s self (Some tmp) [self] = Ret false visited ∧
    refs_present s (refs_of (Some tmp)) ∧
    (∀ a, is_Some (s' !! a) ↔ is_Some (s !! a)) ∧
    (∀ a b, ref_edge s' a b ↔
       (ref_edge s a b ∧ a ≠ self) ∨ (a = self ∧ b ∈ refs_of (Some tmp))) ∧
    (∀ a b, out_edge s' a b ↔
       (out_edge s a b ∧ a ≠ self) ∨ (a = self ∧ b ∈ refs_of (Some tmp))) ∧
    (∀ b a, in_edge s' b a ↔
       (in_edge s b a ∧ a ≠ self) ∨ (a = self ∧ b ∈ refs_of (Some tmp))).
Proof.
  intros Hsym. unfold Cell_Set.
  destruct (s !! self) as [this|] eqn:Hself; [|done].
  destruct (TryCreateCell text) as [tmp|e]; [|done].
  destruct (HasCircularDependency (S (size s)) s self (Some tmp) [self])
    as [[] visited| | |] eqn:Hsearch; try done.
  unfold bind.
  destruct (establish_if_formula self (Some tmp) _) as [[] s3| | |] eqn:Hest;
    try done.
  intros Hinv. apply invalidate_dependents_skeleton in Hinv.
  assert (Hinv' : skeleton s3 = skeleton s') by done.
  apply (Set_graph_steps _ _ _ _ _ Hself Hsym) in Hest
    as (Hrefs & Hdom & Href & Hout & Hin).
  exists tmp, visited. split; [eauto|]. split; [done|]. split; [done|].
  split; [done|]. split; [|split; [|split]].
  - intros a. rewrite <- Hdom. split; apply skeleton_is_Some; done.
  - intros a b. rewrite <- Href. split; apply skeleton_ref_edge; done.
  - intros a b. rewrite <- Hout. split; apply skeleton_out_edge; done.
  - intros b a. rewrite <- Hin. split; apply skeleton_in_edge; done.
Qed.

(** ** Paths after the edges of one cell are replaced *)

Section replaced_edges.
Context (R R1 : relation Position) (p : Position) (targets : Position → Prop).
Hypothesis HR : ∀ x y, R x y ↔ (R1 x y ∧ x ≠ p) ∨ (x = p ∧ targets y).

Lemma replaced_edges_path a b :
  rtc R a b →
  rtc R1 a b ∨ (rtc R1 a p ∧ ∃ r, targets r ∧ rtc R1 r b).
Proof.
  induction 1 as [|x y z Hxy _ IH]; [by left|].
  apply HR in Hxy as [[Hxy Hne]|[-> Hy]].
  - destruct IH as [IH|[IH1 IH2]].
    + left. by eapply rtc_l.
    + right. split; [by eapply rtc_l|done].
  - right. split; [done|]. destruct IH as [IH|[_ IH2]]; eauto.
Qed.

Lemma replaced_edges_cycle a :
  tc R a a → tc R1 a a ∨ ∃ r, targets r ∧ rtc R1 r p.
Proof.
  intros Hc.
  assert (∃ y, R a y ∧ rtc R y a) as (y & Hay & Hya).
  { inversion Hc as [x y Hxy|x y z Hxy Hyz]; subst.
    - exists a. by split.
    - exists y. split; [done|]. by apply tc_rtc. }
  apply replaced_edges_path in Hya as [Hya|[Hyp (r & Hr & Hra)]];
    apply HR in Hay as [[Hay Hne]|[-> Hy]].
  - left. eapply tc_rtc_r; [by apply tc_once|done].
  - right. eauto.
  - right. exists r. split; [done|].
    etrans; [exact Hra|]. by eapply rtc_l.
  - right. eauto.
Qed.

End replaced_edges.

(** ** The invariants are kept *)

Lemma Inv_empty : Inv ∅.
Proof.
  split.
  - intros a [c Hc]. by rewrite lookup_empty in Hc.
  - intros a b. split; intros (c & Hc & _); by rewrite lookup_empty in Hc.
  - intros a b. split; intros (c & Hc & _); by rewrite lookup_empty in Hc.
  - intros a Hc. inversion Hc as [x y (c & Hl & _)|x y z (c & Hl & _)];
      by rewrite lookup_empty in Hl.
Qed.

Lemma Inv_refs_closed s : Inv s → refs_closed s.
Proof.
  intros [Hv Hr Hs Ha] a b Hab.
  apply Hr, Hs in Hab as (c & Hc & _).
  split; [eauto|]. apply Hv. eauto.
Qed.

Lemma Cell_Set_Inv self text s s' :
  Inv s → Cell_Set self text s = Ret () s' → Inv s'.
Proof.
  intros HI Hset. pose proof HI as [Hv Hr Hs Ha].
  apply Cell_Set_steps in Hset
    as (tmp & visited & Hself & Htmp & Hsearch & Hpres & Hdom & Hrefs & Hout & Hin).
  2:{ intros b Hb. by apply Hs. }
  split.
  - intros a Ha'. apply Hv. by apply Hdom.
  - intros a b. rewrite Hout, Hrefs, Hr. tauto.
  - intros a b. rewrite Hout, Hin, Hs. tauto.
  - intros a Hc.
    apply (replaced_edges_cycle _ (out_edge s) self (λ r, r ∈ refs_of (Some tmp)))
      in Hc as [Hc|(r & Hr' & Hpath)]; [| |done].
    + by apply (Ha a).
    + eapply HasCircularDependency_unreachable; [exact Hsearch|exact Hr'|].
      eapply rtc_impl_edges; [|exact Hpath]. intros x y. apply Hr.
Qed.

Lemma HasCircularDependency_loop_false_present descend s reference positions visited v' :
  HasCircularDependency_loop descend s reference positions visited = Ret false v' →
  refs_present s positions.
Proof.
  revert visited. induction positions as [|position rest IH]; intros visited; simpl.
  - intros _ r Hr. by apply elem_of_nil in Hr.
  - unfold Cell_GetCell, Sheet_GetCell.
    destruct (IsValid position) eqn:Hvalid; [|done].
    destruct (s !! position) as [cell|] eqn:Hp; [|done].
    case_decide; [done|].
    assert (Hrest : ∀ v, HasCircularDependency_loop descend s reference rest v
                         = Ret false v' → refs_present s (position :: rest)).
    { intros v Hl r [->|Hr]%elem_of_cons; [by rewrite Hp|]. by eapply IH. }
    case_decide; [apply Hrest|].
    destruct (descend (value_ cell) (position :: visited)) as [[] v1| | |];
      try done. apply Hrest.
Qed.

Lemma HasCircularDependency_false_present fuel s reference current visited v' :
  HasCircularDependency fuel s reference current visited = Ret false v' →
  refs_present s (refs_of current).
Proof.
  destruct fuel as [|fuel]; simpl; [done|]. unfold refs_of.
  destruct (TryInterpretAsFormula current) as [[f o]|].
  - apply HasCircularDependency_loop_false_present.
  - intros _ r Hr. by apply elem_of_nil in Hr.
Qed.

Lemma EstablishNewConnections_loop_returns self positions s :
  is_Some (s !! self) → refs_present s positions →
  ∃ s', EstablishNewConnections_loop self positions s = Ret () s'.
Proof.
  revert s. induction positions as [|position rest IH]; intros s Hself Hpres; simpl.
  - eauto.
  - unfold Cell_GetCell, Sheet_GetCell.
    destruct (Hpres position) as [[cell Hcell] Hvalid]; [by left|].
    rewrite Hvalid, Hcell.
    destruct (connect_spec self position s Hself) as (Hval & _); [by rewrite Hcell|].
    apply IH.
    + eapply value_lookup_is_Some; [apply Hval|done].
    + intros r Hr. destruct (Hpres r) as [Hr1 Hr2]; [by right|].
      split; [|done]. eapply value_lookup_is_Some; [apply Hval|done].
Qed.

Lemma establish_if_formula_returns self value s :
  is_Some (s !! self) → refs_present s (refs_of value) →
  ∃ s', establish_if_formula self value s = Ret () s'.
Proof.
  unfold establish_if_formula, refs_of.
  destruct (TryInterpretAsFormula value) as [[f o]|]; [|eauto].
  apply EstablishNewConnections_loop_returns.
Qed.

(** An exception of [Set] leaves the sheet as it was. *)
Lemma Cell_Set_Throw_state self text s e s' :
  Cell_Set self text s = Throw e s' → s' = s.
Proof.
  unfold Cell_Set. destruct (s !! self) as [this|] eqn:Hself; [|done].
  destruct (TryCreateCell text) as [tmp|e1]; [|by intros [= _ <-]].
  destruct (HasCircularDependency (S (size s)) s self (Some tmp) [self])
    as [[] visited| e1 visited| |] eqn:Hsearch; try done;
    [by intros [= _ <-]| |by intros [= _ <-]].
  apply HasCircularDependency_false_present in Hsearch.
  unfold bind.
  set (s1 := <[self := with_value (Some tmp) this]> s).
  assert (Hs1 : s1 !! self = Some (with_value (Some tmp) this)).
  { unfold s1. apply lookup_insert_eq. }
  assert (Hdom2 : ∀ a, is_Some (s !! a) → is_Some (remove_if_connected self s1 !! a)).
  { intros a Ha. unfold remove_if_connected. rewrite Hs1.
    assert (is_Some (s1 !! a)).
    { unfold s1. rewrite lookup_insert. case_decide; eauto. }
    destruct (set_empty _); [done|].
    rewrite (RemoveOldConnections_lookup _ _ _ _ Hs1).
    by apply fmap_is_Some. }
  destruct (establish_if_formula_returns self (Some tmp) (remove_if_connected self s1))
    as [s3 Hest].
  { apply Hdom2. eauto. }
  { intros r Hr. destruct (Hsearch r Hr). split; [by apply Hdom2|done]. }
  rewrite Hest. intros Hinv. by apply invalidate_dependents_no_throw in Hinv.
Qed.

Lemma alter_with_value_edges self this v s :
  s !! self = Some this →
  let s1 := alter (with_value v) self s in
  (∀ a b, out_edge s1 a b ↔ out_edge s a b) ∧
  (∀ b a, in_edge s1 b a ↔ in_edge s b a) ∧
  (∀ a, is_Some (s1 !! a) ↔ is_Some (s !! a)) ∧
  (∀ a, a ≠ self → value_ <$> s1 !! a = value_ <$> s !! a) ∧
  (value_ <$> s1 !! self = Some v).
Proof.
  intros Hs s1.
  replace s1 with (<[self := with_value v this]> s);
    [by apply insert_with_value_edges|].
  unfold s1. apply map_eq. intros a. rewrite lookup_insert, lookup_alter.
  case_decide; [subst|done]. by rewrite Hs.
Qed.

Lemma Cell_Clear_Inv self s s' :
  Inv s → Cell_Clear self s = Ret () s' → Inv s'.
Proof.
  intros HI. pose proof HI as [Hv Hr Hs Ha]. unfold Cell_Clear.
  destruct (s !! self) as [this|] eqn:Hself; [|done]. intros Hclear.
  assert (∃ s2, (∀ a, is_Some (s2 !! a) ↔ is_Some (s !! a)) ∧
                (∀ a b, ref_edge s2 a b ↔ ref_edge s a b) ∧
                (∀ a b, out_edge s2 a b ↔ out_edge s a b ∧ a ≠ self) ∧
                (∀ b a, in_edge s2 b a ↔ in_edge s b a ∧ a ≠ self) ∧
                s' = alter (with_value (Some EmptyCellValue)) self s2)
    as (s2 & Hdom2 & Href2 & Hout2 & Hin2 & ->).
  { destruct (value_ this) as [v|] eqn:Hvalue.
    - destruct (remove_if_connected_spec self s this Hself)
        as (Hval1 & Hout1 & Hin1); [intros b; apply Hs|].
      destruct (invalidate_dependents self (remove_if_connected self s))
        as [[] s2| | |] eqn:Hinv; try done.
      apply invalidate_dependents_skeleton in Hinv. injection Hclear as <-.
      assert (Hinv' : skeleton (remove_if_connected self s) = skeleton s2) by done.
      exists s2. split; [|split; [|split; [|split]]]; [| | | |done].
      + intros a. transitivity (is_Some (remove_if_connected self s !! a)).
        { split; apply skeleton_is_Some; done. }
        split; apply value_lookup_is_Some; by rewrite Hval1.
      + intros a b. transitivity (ref_edge (remove_if_connected self s) a b).
        { split; apply skeleton_ref_edge; done. }
        split; apply ref_edge_value; by rewrite Hval1.
      + intros a b. rewrite <- Hout1. split; apply skeleton_out_edge; done.
      + intros b a. rewrite <- Hin1. split; apply skeleton_in_edge; done.
    - injection Hclear as <-. exists s. split; [done|]. split; [done|].
      assert (Hnone : ∀ b, ¬ out_edge s self b).
      { intros b Hb. apply Hr in Hb as (c & Hc & Hb). simplify_eq.
        unfold refs_of in Hb. rewrite Hvalue in Hb. by apply elem_of_nil in Hb. }
      split; [|split]; [| |done].
      + intros a b. split; [|tauto]. intros Hab. split; [done|].
        intros ->. by apply (Hnone b).
      + intros b a. split; [|tauto]. intros Hba. split; [done|].
        intros ->. by apply (Hnone b), Hs. }
  clear Hclear.
  assert (is_Some (s2 !! self)) as [this2 Hself2] by (apply Hdom2; eauto).
  destruct (alter_with_value_edges self this2 (Some EmptyCellValue) s2 Hself2)
    as (Hout3 & Hin3 & Hdom3 & Hval3 & Hself3).
  set (s3 := alter (with_value (Some EmptyCellValue)) self s2) in *.
  assert (Hrefs : ∀ a b, ref_edge s3 a b ↔ ref_edge s a b ∧ a ≠ self).
  { intros a b. rewrite <- Href2. destruct (decide (a = self)) as [->|Hne].
    - split; [|tauto]. intros (c & Hc & Hb). rewrite Hc in Hself3.
      simpl in Hself3. injection Hself3 as Hself3. rewrite Hself3 in Hb.
      by apply elem_of_nil in Hb.
    - split.
      + intros Hab. split; [|done]. eapply ref_edge_value; [|exact Hab].
        by rewrite Hval3.
      + intros [Hab _]. eapply ref_edge_value; [|exact Hab].
        by rewrite Hval3. }
  split.
  - intros a Ha'. apply Hv. by apply Hdom2, Hdom3.
  - intros a b. rewrite Hout3, Hout2, Hrefs, Hr. tauto.
  - intros a b. rewrite Hout3, Hin3, Hout2, Hin2, Hs. tauto.
  - intros a Hc. apply (Ha a). eapply tc_impl_edges; [|exact Hc].
    intros x y. rewrite Hout3, Hout2. tauto.
Qed.

(** A new cell in an empty slot. *)
Lemma Inv_insert_new position s :
  s !! position = None → IsValid position = true → Inv s →
  Inv (<[position := Cell_new]> s).
Proof.
  intros Hnone Hvalid [Hv Hr Hs Ha].
  assert (Hout : ∀ a b, out_edge (<[position := Cell_new]> s) a b ↔ out_edge s a b).
  { intros a b. unfold out_edge. rewrite lookup_insert. case_decide; [subst|done].
    rewrite Hnone. split; intros (c & Hc & Hb); simplify_eq.
    by apply elem_of_nil in Hb. }
  assert (Hin : ∀ b a, in_edge (<[position := Cell_new]> s) b a ↔ in_edge s b a).
  { intros b a. unfold in_edge. rewrite lookup_insert. case_decide; [subst|done].
    rewrite Hnone. split; intros (c & Hc & Hb); simplify_eq.
    by apply elem_of_nil in Hb. }
  assert (Href : ∀ a b, ref_edge (<[position := Cell_new]> s) a b ↔ ref_edge s a b).
  { intros a b. unfold ref_edge. rewrite lookup_insert. case_decide; [subst|done].
    rewrite Hnone. split; intros (c & Hc & Hb); simplify_eq.
    by apply elem_of_nil in Hb. }
  split.
  - intros a. rewrite lookup_insert_is_Some. intros [<-|[_ Ha']]; [done|by apply Hv].
  - intros a b. by rewrite Hout, Href.
  - intros a b. by rewrite Hout, Hin.
  - intros a Hc. apply (Ha a). eapply tc_impl_edges; [|exact Hc].
    intros x y. by rewrite Hout.
Qed.

Lemma perform_Inv op s s' : Inv s → perform op s = Some s' → Inv s'.
Proof.
  intros HI. destruct op as [position text|position|position]; simpl.
  - unfold Sheet_SetCell. destruct (IsValid position) eqn:Hvalid;
      [|by intros [= <-]].
    destruct (s !! position) as [c|] eqn:Hc.
    + destruct (Cell_Set position text s) as [[] s1|e s1| |] eqn:Hset;
        simpl; try done; intros [= <-].
      * by eapply Cell_Set_Inv.
      * by rewrite (Cell_Set_Throw_state _ _ _ _ _ Hset).
    + pose proof (Inv_insert_new position s Hc Hvalid HI) as HI1.
      destruct (Cell_Set position text (<[position := Cell_new]> s))
        as [[] s1|e s1| |] eqn:Hset; simpl; try done; intros [= <-].
      * by eapply Cell_Set_Inv.
      * by rewrite (Cell_Set_Throw_state _ _ _ _ _ Hset).
  - unfold Sheet_ClearCell. destruct (IsValid position); [|by intros [= <-]].
    destruct (s !! position) as [c|] eqn:Hc; [|by intros [= <-]].
    destruct (Cell_Clear position s) as [[] s1|e s1| |] eqn:Hclear;
      simpl; try done; intros [= <-].
    + by eapply Cell_Clear_Inv.
    + exfalso. revert Hclear. unfold Cell_Clear. rewrite Hc.
      destruct (value_ c); [|done].
      destruct (invalidate_dependents position (remove_if_connected position s))
        as [[] s2|e2 s2| |] eqn:Hinv; try done.
      by apply invalidate_dependents_no_throw in Hinv.
  - unfold Sheet_GetValue. destruct (IsValid position); [|by intros [= <-]].
    intros Hs'. eapply Inv_skeleton; [|exact HI]. symmetry.
    by eapply Cell_GetValue_skeleton.
Qed.

Lemma perform_all_Inv ops s s' : Inv s → perform_all ops s = Some s' → Inv s'.
Proof.
  revert s. induction ops as [|op rest IH]; intros s HI; simpl.
  - by intros [= <-].
  - destruct (perform op s) as [s1|] eqn:Hop; [|done].
    apply IH. by eapply perform_Inv.
Qed.

Lemma perform_all_reaches_Inv ops s : perform_all ops ∅ = Some s → Inv s.
Proof. apply perform_all_Inv, Inv_empty. Qed.

Lemma unvisited_le_size s visited : (unvisited s visited ≤ size s)%nat.
Proof.
  unfold unvisited. rewrite <- (size_dom (D := gset Position) s).
  apply subseteq_size. intros x. rewrite elem_of_difference. tauto.
Qed.

(** ** Invalidation returns *)

Lemma unvisited_skeleton s1 s2 visited :
  skeleton s1 = skeleton s2 → unvisited s1 visited = unvisited s2 visited.
Proof.
  intros E. unfold unvisited. f_equal. f_equal.
  apply set_eq. intros x. rewrite !elem_of_dom.
  split; apply skeleton_is_Some; done.
Qed.

Lemma InvalidateReferencedCellsCache_loop_mono descend :
  (∀ cell st st', descend cell st = Ret () st' → ∀ x, x ∈ st.1 → x ∈ st'.1) →
  ∀ cells st st',
    InvalidateReferencedCellsCache_loop descend cells st = Ret () st' →
    ∀ x, x ∈ st.1 → x ∈ st'.1.
Proof.
  intros Hd cells. induction cells as [|cell rest IH]; intros st st'; simpl.
  - by intros [= <-].
  - case_decide; [by intros [= <-]|].
    destruct (st.2 !! cell) as [c|]; [|done].
    assert (Hskip : InvalidateReferencedCellsCache_loop descend rest (cell :: st.1, st.2)
                    = Ret () st' → ∀ x, x ∈ st.1 → x ∈ st'.1).
    { intros Hl x Hx. apply (IH _ _ Hl). by right. }
    destruct (TryInterpretAsFormula (value_ c)) as [[f [v|]]|]; [|done|done].
    destruct (descend cell (cell :: st.1, alter (with_cache None) cell st.2))
      as [[] st1| | |] eqn:E; try done.
    intros Hl x Hx. apply (IH _ _ Hl). apply (Hd _ _ _ E). by right.
Qed.

Lemma InvalidateReferencedCellsCache_mono fuel self st st' :
  InvalidateReferencedCellsCache fuel self st = Ret () st' →
  ∀ x, x ∈ st.1 → x ∈ st'.1.
Proof.
  revert self st st'. induction fuel as [|fuel IH]; intros self st st'; simpl;
    [done|].
  destruct (st.2 !! self) as [this|]; [|done].
  by apply InvalidateReferencedCellsCache_loop_mono.
Qed.

Lemma dependents_present_skeleton s1 s2 :
  skeleton s1 = skeleton s2 → dependents_present s1 → dependents_present s2.
Proof.
  intros E Hp b a Hba. apply (skeleton_is_Some s1 s2); [done|].
  apply (Hp b). by apply (skeleton_in_edge s2 s1).
Qed.

Lemma InvalidateReferencedCellsCache_loop_returns fuel :
  (∀ self st, dependents_present st.2 → is_Some (st.2 !! self) →
     (unvisited st.2 st.1 < fuel)%nat →
     ∃ st', InvalidateReferencedCellsCache fuel self st = Ret () st') →
  ∀ cells st, dependents_present st.2 →
    (∀ cell, cell ∈ cells → is_Some (st.2 !! cell)) →
    (unvisited st.2 st.1 ≤ fuel)%nat →
    ∃ st', InvalidateReferencedCellsCache_loop
             (InvalidateReferencedCellsCache fuel) cells st = Ret () st'.
Proof.
  intros IHf cells. induction cells as [|cell rest IH];
    intros st Hdep Hcells Hfuel; simpl; [eauto|].
  case_decide as Hvis; [eauto|].
  destruct (Hcells cell) as [c Hc]; [by left|]. rewrite Hc.
  pose proof (unvisited_cons st.2 cell st.1 (mk_is_Some _ _ Hc) Hvis) as Hlt.
  assert (Hskip : ∃ st', InvalidateReferencedCellsCache_loop
             (InvalidateReferencedCellsCache fuel) rest (cell :: st.1, st.2)
             = Ret () st').
  { apply IH; simpl; [done| |lia]. intros x Hx. apply Hcells. by right. }
  destruct (TryInterpretAsFormula (value_ c)) as [[f [v|]]|]; [|done|done].
  pose proof (skeleton_alter_cache None cell st.2) as Hsk.
  destruct (IHf cell (cell :: st.1, alter (with_cache None) cell st.2))
    as [st1 E]; simpl.
  { by apply (dependents_present_skeleton st.2). }
  { apply (skeleton_is_Some st.2); [done|eauto]. }
  { rewrite (unvisited_skeleton _ st.2) by done. lia. }
  rewrite E.
  pose proof (InvalidateReferencedCellsCache_skeleton _ _ _ _ st1 E eq_refl) as Hsk1.
  simpl in Hsk1. rewrite Hsk in Hsk1.
  apply IH.
  - by apply (dependents_present_skeleton st.2).
  - intros x Hx. apply (skeleton_is_Some st.2); [done|]. apply Hcells. by right.
  - rewrite (unvisited_skeleton _ st.2) by done.
    pose proof (unvisited_mono st.2 _ _ (InvalidateReferencedCellsCache_mono _ _ _ _ E)).
    simpl in *. lia.
Qed.

Lemma InvalidateReferencedCellsCache_returns fuel self st :
  dependents_present st.2 → is_Some (st.2 !! self) →
  (unvisited st.2 st.1 < fuel)%nat →
  ∃ st', InvalidateReferencedCellsCache fuel self st = Ret () st'.
Proof.
  revert self st. induction fuel as [|fuel IH]; intros self st Hdep [this Hthis] Hfuel;
    simpl; [lia|].
  rewrite Hthis. apply InvalidateReferencedCellsCache_loop_returns; [done|done| |lia].
  intros cell Hcell. apply (Hdep self). by exists this.
Qed.

Lemma invalidate_dependents_returns self s :
  dependents_present s → is_Some (s !! self) →
  ∃ s', invalidate_dependents self s = Ret () s'.
Proof.
  intros Hdep [this Hthis]. unfold invalidate_dependents. rewrite Hthis.
  destruct (set_empty (ascending_cells_ this)); [eauto|].
  destruct (InvalidateReferencedCellsCache_returns (S (size s)) self ([self], s))
    as [st' E].
  { done. }
  { simpl. eauto. }
  { simpl. pose proof (unvisited_le_size s [self]). lia. }
  rewrite E. eauto.
Qed.

(** With the referenced cells in place and the cell out of their reach,
    [Set] returns. *)
Lemma Cell_Set_returns self text tmp s :
  Inv s → is_Some (s !! self) →
  TryCreateCell text = Returns tmp →
  refs_present s (refs_of (Some tmp)) →
  (∀ r, r ∈ refs_of (Some tmp) → ¬ rtc (ref_edge s) r self) →
  ∃ s', Cell_Set self text s = Ret () s'.
Proof.
  intros HI [this Hself] Htmp Hpres Hfar. pose proof HI as [Hv Hr Hs Ha].
  unfold Cell_Set. rewrite Hself, Htmp.
  destruct (HasCircularDependency_returns s self (S (size s)) (Some tmp) [self])
    as (found & visited & Hsearch).
  { by apply Inv_refs_closed. }
  { done. }
  { pose proof (unvisited_le_size s [self]). lia. }
  rewrite Hsearch. destruct found.
  { apply HasCircularDependency_sound in Hsearch as (r & Hr1 & Hr2).
    by destruct (Hfar r Hr1). }
  unfold bind.
  set (s1 := <[self := with_value (Some tmp) this]> s).
  assert (Hs1 : s1 !! self = Some (with_value (Some tmp) this)).
  { unfold s1. apply lookup_insert_eq. }
  assert (Hdom2 : ∀ a, is_Some (s !! a) → is_Some (remove_if_connected self s1 !! a)).
  { intros a Ha'. unfold remove_if_connected. rewrite Hs1.
    assert (is_Some (s1 !! a)).
    { unfold s1. rewrite lookup_insert. case_decide; eauto. }
    destruct (set_empty _); [done|].
    rewrite (RemoveOldConnections_lookup _ _ _ _ Hs1).
    by apply fmap_is_Some. }
  destruct (establish_if_formula_returns self (Some tmp) (remove_if_connected self s1))
    as [s3 Hest].
  { apply Hdom2. eauto. }
  { intros r Hr'. destruct (Hpres r Hr'). split; [by apply Hdom2|done]. }
  rewrite Hest.
  apply (Set_graph_steps _ _ _ _ _ Hself) in Hest as (_ & Hdom & _ & _ & Hin).
  2:{ intros b. apply Hs. }
  apply invalidate_dependents_returns.
  - intros b a. rewrite Hin, Hdom. intros [[Hba _]|[-> _]]; [|eauto].
    apply Hs in Hba as (c & Hc & _). eauto.
  - apply Hdom. eauto.
Qed.

(** ** The referenced cells of a formula *)

Lemma Position_ltb_irrefl a : Position_ltb a a = false.
Proof. unfold Position_ltb. destruct a as [r c]; simpl. lia. Qed.

Lemma Position_ltb_trans (x y z : Position) :
  Position_ltb x y = true → Position_ltb y z = true → Position_ltb x z = true.
Proof. unfold Position_ltb. destruct x, y, z; simpl. lia. Qed.

Lemma Position_ltb_total a b :
  Position_ltb a b = false → Position_ltb b a = false → a = b.
Proof.
  unfold Position_ltb. destruct a as [r1 c1], b as [r2 c2]; simpl.
  intros H1 H2. f_equal; lia.
Qed.

Lemma Position_le_trans (x y z : Position) :
  Position_le x y → Position_le y z → Position_le x z.
Proof. unfold Position_le, Position_ltb. destruct x, y, z; simpl. lia. Qed.

Lemma elem_of_sorted_insert x y l : y ∈ sorted_insert x l ↔ y = x ∨ y ∈ l.
Proof.
  induction l as [|z l IH]; simpl.
  - rewrite elem_of_cons. tauto.
  - destruct (Position_ltb z x).
    + rewrite !elem_of_cons, IH. tauto.
    + rewrite !elem_of_cons. tauto.
Qed.

Lemma elem_of_std_sort y l : y ∈ std_sort l ↔ y ∈ l.
Proof.
  induction l as [|x l IH]; simpl; [done|].
  rewrite elem_of_sorted_insert, elem_of_cons, IH. tauto.
Qed.

Lemma elem_of_std_unique y l : y ∈ std_unique l ↔ y ∈ l.
Proof.
  induction l as [|x l IH]; [done|]. simpl.
  destruct l as [|z l]; [done|].
  case_decide; [subst|].
  - rewrite IH, !elem_of_cons. tauto.
  - rewrite elem_of_cons, IH, !elem_of_cons. tauto.
Qed.

Lemma sorted_insert_Sorted x l :
  Sorted Position_le l → Sorted Position_le (sorted_insert x l).
Proof.
  induction 1 as [|y l Hl IH Hy]; simpl.
  - by repeat constructor.
  - destruct (Position_ltb y x) eqn:Hyx.
    + constructor; [done|].
      destruct l as [|z l]; simpl.
      * constructor. unfold Position_le. unfold Position_ltb in *.
        destruct x, y; simpl in *. lia.
      * inversion Hy; subst. destruct (Position_ltb z x) eqn:Hzx.
        -- by constructor.
        -- constructor. unfold Position_le. unfold Position_ltb in *.
           destruct x, y; simpl in *. lia.
    + constructor; [by constructor|]. by constructor.
Qed.

Lemma std_sort_Sorted l : Sorted Position_le (std_sort l).
Proof.
  induction l as [|x l IH]; simpl; [constructor|]. by apply sorted_insert_Sorted.
Qed.

(** The referenced cells are sorted and are the cells of the tree. *)
Lemma Formula_new_sorted expression f :
  Formula_new expression = Some f →
  Sorted Position_le (Formula_GetReferencedCells f) ∧
  ∀ position, position ∈ Formula_GetReferencedCells f ↔ position ∈ GetCells (ast_ f).
Proof.
  unfold Formula_new. destruct (ParseFormulaAST expression) as [ast|]; [|done].
  intros [= <-]. simpl. split; [apply std_sort_Sorted|].
  intros position. by rewrite elem_of_std_sort, elem_of_std_unique.
Qed.

Lemma Position_le_antisym (x y : Position) :
  Position_le x y → Position_le y x → x = y.
Proof. intros Hxy Hyx. by apply Position_ltb_total. Qed.

Lemma std_sort_of_Sorted l : Sorted Position_le l → std_sort l = l.
Proof.
  induction 1 as [|x l Hl IH Hx]; simpl; [done|]. rewrite IH.
  destruct Hx as [|y l Hxy]; simpl; [done|].
  unfold Position_le in Hxy. by rewrite Hxy.
Qed.

Lemma std_unique_StronglySorted l :
  StronglySorted Position_le l → StronglySorted Position_le (std_unique l).
Proof.
  induction 1 as [|x l Hl IH Hx]; [constructor|]. simpl.
  destruct l as [|y l]; [by repeat constructor|].
  case_decide; [done|]. constructor; [done|].
  apply Forall_forall. intros z Hz. rewrite elem_of_std_unique in Hz.
  rewrite Forall_forall in Hx. by apply Hx.
Qed.

Lemma std_unique_NoDup l :
  StronglySorted Position_le l → NoDup (std_unique l).
Proof.
  induction 1 as [|x l Hl IH Hx]; [constructor|]. simpl.
  destruct l as [|y l]; [apply NoDup_singleton|].
  case_decide as Hne; [done|]. apply NoDup_cons. split; [|done].
  rewrite elem_of_std_unique. intros [->|Hin]%elem_of_cons; [done|].
  apply Hne. apply Position_le_antisym.
  - rewrite Forall_forall in Hx. apply Hx. by left.
  - inversion Hl as [|y' l' _ Hy]; subst.
    rewrite Forall_forall in Hy. by apply Hy.
Qed.

(** When the tree hands over its cells in order, no position is repeated. *)
Lemma Formula_new_NoDup expression f :
  Formula_new expression = Some f →
  Sorted Position_le (GetCells (ast_ f)) →
  NoDup (Formula_GetReferencedCells f).
Proof.
  unfold Formula_new. destruct (ParseFormulaAST expression) as [ast|]; [|done].
  intros [= <-]. simpl. intros Hsorted.
  apply Sorted_StronglySorted in Hsorted; [|intros x y z; apply Position_le_trans].
  rewrite std_sort_of_Sorted.
  - by apply std_unique_NoDup.
  - by apply StronglySorted_Sorted, std_unique_StronglySorted.
Qed.

(** ** The pattern of the coercion *)

Lemma nullable_le r r' : regex_le r r' → nullable r = true → nullable r' = true.
Proof.
  induction 1; simpl; try done.
  - intros [? ?]%andb_true_iff. apply andb_true_iff. auto.
  - intros [?|?]%orb_true_iff; apply orb_true_iff; auto.
  - intros ?. apply orb_true_iff. auto.
  - intros ?. apply orb_true_iff. auto.
Qed.

Lemma deriv_le (x : ascii) r r' : regex_le r r' → regex_le (deriv x r) (deriv x r').
Proof.
  induction 1 as [r|r|y Hy|r1 r2 r1' r2' H1 IH1 H2 IH2|r1 r2 r1' r2' H1 IH1 H2 IH2
                  |r r1 r2 H1 IH1|r r1 r2 H1 IH1|r r' H1 IH1]; simpl.
  - constructor.
  - constructor.
  - destruct (Ascii.eqb x y) eqn:E; [|constructor].
    apply Ascii.eqb_eq in E as ->. rewrite Hy. constructor.
  - pose proof (nullable_le _ _ H1) as Hn.
    destruct (nullable r1), (nullable r1'); try (by discriminate Hn).
    + by repeat constructor.
    + apply regex_le_alt_l. by constructor.
    + by constructor.
  - by constructor.
  - by apply regex_le_alt_l.
  - by apply regex_le_alt_r.
  - by repeat constructor.
Qed.

Lemma regex_match_le text r r' :
  regex_le r r' → regex_match text r = true → regex_match text r' = true.
Proof.
  revert r r'. induction text as [|x text IH]; intros r r' Hle; simpl.
  - by apply nullable_le.
  - apply IH. by apply deriv_le.
Qed.

(** Every strict decimal matches the pattern of the code. *)
Lemma strict_decimal_matches_pattern text :
  regex_match text strict_decimal = true →
  regex_match text kDoubleValuePattern = true.
Proof.
  apply regex_match_le. unfold strict_decimal, kDoubleValuePattern, Opt.
  repeat (first [apply regex_le_any; reflexivity | apply regex_le_refl
                | apply regex_le_seq | apply regex_le_alt]).
Qed.

(** What the visitor does with a text outside the pattern and with one
    inside it. *)
Lemma CellValueGetter_text text :
  CellValueGetter (VString text)
  = if regex_match text kDoubleValuePattern then
      match stod text with
      | Some d => Returns d
      | None => Throws (FormulaErrorThrown (mkFormulaError Category.Value))
      end
    else Throws (FormulaErrorThrown (mkFormulaError Category.Value)).
Proof. reflexivity. Qed.

(** ** Reading a position without a cell *)

Lemma get_value_absent getv position s :
  IsValid position = true → s !! position = None →
  get_value getv position s = Ret zero s.
Proof. intros Hvalid Hnone. unfold get_value, Sheet_GetCell. by rewrite Hvalid, Hnone. Qed.

(** ** The referenced cells of a cell *)

Lemma Cell_GetReferencedCells_Ret self s l s' :
  Cell_GetReferencedCells self s = Ret l s' →
  ∃ this formula cache,
    s !! self = Some this ∧
    value_ this = Some (FormulaCellValue formula cache) ∧
    l = Formula_GetReferencedCells formula ∧ s' = s.
Proof.
  unfold Cell_GetReferencedCells. destruct (s !! self) as [this|]; [|done].
  destruct (value_ this) as [[| |formula cache]|] eqn:Hvalue; simpl; try done.
  intros [= <- <-]. by exists this, formula, cache.
Qed.

Lemma Cell_GetReferencedCells_no_formula self s this :
  s !! self = Some this → TryInterpretAsFormula (value_ this) = None →
  Cell_GetReferencedCells self s = Undefined.
Proof. intros Hself Hnone. unfold Cell_GetReferencedCells. by rewrite Hself, Hnone. Qed.

(** ** The claims on the engine as a whole *)

(** C9 — edge symmetry: in every state that public operations reach from the
    empty sheet, for all cells A and B, B is in the descending set of A if
    and only if A is in the ascending set of B. *)
Theorem edge_symmetry ops s a b ca cb :
  perform_all ops ∅ = Some s →
  s !! a = Some ca → s !! b = Some cb →
  b ∈ descending_cells_ ca ↔ a ∈ ascending_cells_ cb.
Proof.
  intros Hops Ha Hb. apply perform_all_reaches_Inv in Hops as [_ _ Hs _].
  specialize (Hs a b). unfold out_edge, in_edge in Hs. split.
  - intros Hin. destruct Hs as [Hs _].
    destruct Hs as (c & Hc & Hc'); [eauto|]. by simplify_eq.
  - intros Hin. destruct Hs as [_ Hs].
    destruct Hs as (c & Hc & Hc'); [eauto|]. by simplify_eq.
Qed.

(** X22 — cycle rejection: in a reachable state where the referenced cells
    exist, [Set] with a formula candidate throws CircularDependency exactly
    when the cell is reachable from the referenced positions along the
    references of the formulas in the sheet, a reference to the cell itself
    included, and returns when it is not; and after every successful [Set]
    no cell reaches itself along the descending edges. *)
Theorem Set_rejects_cycles ops s self text formula :
  perform_all ops ∅ = Some s →
  is_Some (s !! self) →
  TryCreateCell text = Returns (FormulaCellValue formula None) →
  refs_present s (Formula_GetReferencedCells formula) →
  (Cell_Set self text s = Throw (CircularDependencyException "") s
   ↔ ∃ r, r ∈ Formula_GetReferencedCells formula ∧ rtc (ref_edge s) r self)
  ∧ ((∀ r, r ∈ Formula_GetReferencedCells formula → ¬ rtc (ref_edge s) r self) →
     ∃ s', Cell_Set self text s = Ret () s')
  ∧ (∀ text' s', Cell_Set self text' s = Ret () s' → ∀ a, ¬ tc (out_edge s') a a).
Proof.
  intros Hops [this Hself] Htmp Hpres.
  apply perform_all_reaches_Inv in Hops as HI. split; [|split].
  - destruct (HasCircularDependency_returns s self (S (size s))
                (Some (FormulaCellValue formula None)) [self])
      as (found & visited & Hsearch).
    { by apply Inv_refs_closed. }
    { done. }
    { pose proof (unvisited_le_size s [self]). lia. }
    destruct found.
    + split.
      * intros _. by apply HasCircularDependency_sound in Hsearch.
      * intros _. unfold Cell_Set. by rewrite Hself, Htmp, Hsearch.
    + split.
      * unfold Cell_Set. rewrite Hself, Htmp, Hsearch. unfold bind.
        set (s2 := remove_if_connected self _).
        destruct (establish_if_formula self _ s2) as [[] s3|e s3| |] eqn:Hest;
          try done.
        -- intros Hinv. by apply invalidate_dependents_no_throw in Hinv.
        -- unfold establish_if_formula in Hest. simpl in Hest.
           by apply EstablishNewConnections_loop_throw in Hest as ->.
      * intros (r & Hr & Hpath). exfalso.
        by eapply HasCircularDependency_unreachable.
  - intros Hfar. eapply Cell_Set_returns; eauto.
  - intros text' s' Hset. by apply Cell_Set_Inv in Hset as [_ _ _ Hacyclic].
Qed.

(** C2 — atomicity of rejected edits: when [Set] throws, be it the
    FormulaException of a rejected formula or the
    CircularDependencyException of a cycle, the sheet it leaves behind,
    with every value, edge set and cache, is the sheet before the call. *)
Theorem Set_rejected_is_atomic self text s e s' :
  Cell_Set self text s = Throw e s' → s' = s.
Proof. apply Cell_Set_Throw_state. Qed.



(** ** What [TryCreateCell] and [Set] throw *)

Lemma TryCreateCell_Throws text e :
  TryCreateCell text = Throws e →
  ∃ body, text = String FORMULA_SIGN body ∧ body ≠ "" ∧
          ParseFormulaAST body = None ∧
          e = FormulaException ("Error in Set() method call for text: " +:+ text).
Proof.
  unfold TryCreateCell. destruct text as [|front body]; [done|].
  destruct body as [|c body]; [by destruct (Ascii.eqb front FORMULA_SIGN)|].
  simpl. destruct (Ascii.eqb front FORMULA_SIGN) eqn:Hfront; [|done].
  apply Ascii.eqb_eq in Hfront as ->.
  unfold ParseFormula, Formula_new.
  destruct (ParseFormulaAST (String c body)) as [ast|] eqn:Hparse; [done|].
  intros [= <-]. by exists (String c body).
Qed.

(** X1 — [TryCreateCell] throws for one reason only: the text is an equals
    sign followed by at least one character and the parser rejects what
    follows the sign; the exception is a FormulaException whose message
    ends with the whole text. *)
Theorem TryCreateCell_throws_only text e :
  TryCreateCell text = Throws e →
  ∃ body, text = String FORMULA_SIGN body ∧ body ≠ "" ∧
          ParseFormulaAST body = None ∧
          e = FormulaException ("Error in Set() method call for text: " +:+ text).
Proof. apply TryCreateCell_Throws. Qed.

Lemma TryCreateCell_not_formula text :
  (∀ body, body ≠ "" → text ≠ String FORMULA_SIGN body) →
  TryCreateCell text
  = Returns (match text with
             | EmptyString => EmptyCellValue
             | _ => TextCellValue text
             end).
Proof.
  intros Hplain. unfold TryCreateCell. destruct text as [|front body]; [done|].
  destruct body as [|c body]; [by destruct (Ascii.eqb front FORMULA_SIGN)|].
  simpl. destruct (Ascii.eqb front FORMULA_SIGN) eqn:Hfront; [|done].
  apply Ascii.eqb_eq in Hfront as ->. by destruct (Hplain (String c body)).
Qed.

(** X2 — a text that is not an equals sign followed by something is never
    parsed: the empty text gives the Empty value and every other such text,
    the lone equals sign included, the Text value holding the text
    unchanged. *)
Theorem TryCreateCell_plain_text text :
  (∀ body, body ≠ "" → text ≠ String FORMULA_SIGN body) →
  TryCreateCell text
  = Returns (match text with
             | EmptyString => EmptyCellValue
             | _ => TextCellValue text
             end).
Proof. apply TryCreateCell_not_formula. Qed.

Lemma HasCircularDependency_loop_throw descend s reference positions visited e v' :
  (∀ current v e1 v1, descend current v = Throw e1 v1 →
     e1 = InvalidPositionException "") →
  HasCircularDependency_loop descend s reference positions visited = Throw e v' →
  e = InvalidPositionException "".
Proof.
  intros Hd. revert visited.
  induction positions as [|position rest IH]; intros visited; simpl; [done|].
  unfold Cell_GetCell, Sheet_GetCell.
  destruct (IsValid position); [|by intros [= <- _]].
  destruct (s !! position) as [cell|]; [|done].
  case_decide; [done|]. case_decide; [apply IH|].
  destruct (descend (value_ cell) (position :: visited)) as [[] v1|e1 v1| |] eqn:E;
    try done; [apply IH|].
  intros [= <- _]. by eapply Hd.
Qed.

Lemma HasCircularDependency_throw fuel s reference current visited e v' :
  HasCircularDependency fuel s reference current visited = Throw e v' →
  e = InvalidPositionException "".
Proof.
  revert current visited e v'.
  induction fuel as [|fuel IH]; intros current visited e v'; simpl; [done|].
  destruct (TryInterpretAsFormula current) as [[f o]|]; [|done].
  apply HasCircularDependency_loop_throw. intros cur v e1 v1. apply IH.
Qed.

(** The three ways [Set] throws. *)
Lemma Cell_Set_Throw_inv self text s e s' :
  Cell_Set self text s = Throw e s' →
  TryCreateCell text = Throws e ∨
  e = CircularDependencyException "" ∨
  e = InvalidPositionException "".
Proof.
  unfold Cell_Set. destruct (s !! self) as [this|] eqn:Hself; [|done].
  destruct (TryCreateCell text) as [tmp|e1]; [|intros [= <- _]; by left].
  destruct (HasCircularDependency (S (size s)) s self (Some tmp) [self])
    as [[] visited| e1 visited| |] eqn:Hsearch; try done.
  - intros [= <- _]. right. by left.
  - unfold bind.
    destruct (establish_if_formula self (Some tmp) _) as [[] s3|e3 s3| |] eqn:Hest;
      try done.
    + intros Hinv. by apply invalidate_dependents_no_throw in Hinv.
    + intros [= <- _]. right. right. unfold establish_if_formula in Hest.
      destruct (TryInterpretAsFormula (Some tmp)) as [[f o]|]; [|done].
      by apply EstablishNewConnections_loop_throw in Hest.
  - intros [= <- _]. right. right.
    by apply HasCircularDependency_throw in Hsearch.
Qed.

(** X3 — the exceptions of [Set]: a FormulaException with the text in its
    message when the parser rejects the formula, a
    CircularDependencyException, or the InvalidPositionException of a lookup
    at a position outside the grid; nothing else is thrown. *)
Theorem Set_throws_only self text s e s' :
  Cell_Set self text s = Throw e s' →
  e = FormulaException ("Error in Set() method call for text: " +:+ text) ∨
  e = CircularDependencyException "" ∨
  e = InvalidPositionException "".
Proof.
  intros [Hcreate|[He|He]]%Cell_Set_Throw_inv; [|by right; left|by right; right].
  left. by apply TryCreateCell_Throws in Hcreate as (body & _ & _ & _ & ->).
Qed.


(** ** Values and caches along [Set] *)

Lemma remove_if_connected_value self s this a :
  s !! self = Some this →
  value_ <$> remove_if_connected self s !! a = value_ <$> s !! a.
Proof.
  intros Hs. unfold remove_if_connected. rewrite Hs.
  destruct (set_empty (descending_cells_ this)); [done|].
  rewrite (RemoveOldConnections_lookup _ _ this) by done. by destruct (s !! a).
Qed.

Lemma Set_value_steps self this tmp s s3 :
  s !! self = Some this →
  establish_if_formula self (Some tmp)
    (remove_if_connected self (<[self := with_value (Some tmp) this]> s))
  = Ret () s3 →
  ∀ a, value_ <$> s3 !! a
       = if decide (a = self) then Some (Some tmp) else value_ <$> s !! a.
Proof.
  intros Hself Hest a.
  set (s1 := <[self := with_value (Some tmp) this]> s) in *.
  assert (Hs1 : s1 !! self = Some (with_value (Some tmp) this)).
  { unfold s1. apply lookup_insert_eq. }
  apply establish_if_formula_spec in Hest as (_ & Hval3 & _).
  2:{ eapply value_lookup_is_Some;
        [apply (remove_if_connected_value _ _ _ _ Hs1)|by rewrite Hs1]. }
  rewrite Hval3, (remove_if_connected_value _ _ _ _ Hs1).
  unfold s1. rewrite lookup_insert. case_decide; subst.
  - by rewrite decide_True.
  - by rewrite decide_False.
Qed.

Lemma cleared_refl s : cleared s s.
Proof. intros a. by left. Qed.

Lemma cleared_trans s1 s2 s3 : cleared s1 s2 → cleared s2 s3 → cleared s1 s3.
Proof.
  intros H12 H23 a. destruct (H23 a) as [-> | ->], (H12 a) as [-> | ->]; auto.
  right. destruct (s1 !! a); simpl; [|done]. by rewrite with_cache_idem.
Qed.

Lemma cleared_alter cell s : cleared s (alter (with_cache None) cell s).
Proof.
  intros a. rewrite lookup_alter. case_decide; subst; auto.
Qed.

Lemma InvalidateReferencedCellsCache_loop_cleared descend :
  (∀ cell st st', descend cell st = Ret () st' → cleared st.2 st'.2) →
  ∀ cells st st',
    InvalidateReferencedCellsCache_loop descend cells st = Ret () st' →
    cleared st.2 st'.2.
Proof.
  intros Hd cells. induction cells as [|cell rest IH]; intros st st'; simpl.
  - intros [= <-]. apply cleared_refl.
  - case_decide; [intros [= <-]; apply cleared_refl|].
    destruct (st.2 !! cell) as [c|]; [|done].
    destruct (TryInterpretAsFormula (value_ c)) as [[f [v|]]|].
    + destruct (descend cell (cell :: st.1, alter (with_cache None) cell st.2))
        as [[] st1| | |] eqn:E; try done.
      intros Hl. eapply cleared_trans; [|by apply (IH _ _ Hl)].
      eapply cleared_trans; [|by apply (Hd _ _ _ E)]. apply cleared_alter.
    + intros Hl. by apply (IH _ _ Hl).
    + intros Hl. by apply (IH _ _ Hl).
Qed.

Lemma InvalidateReferencedCellsCache_cleared fuel self st st' :
  InvalidateReferencedCellsCache fuel self st = Ret () st' → cleared st.2 st'.2.
Proof.
  revert self st st'. induction fuel as [|fuel IH]; intros self st st'; simpl;
    [done|].
  destruct (st.2 !! self) as [this|]; [|done].
  by apply InvalidateReferencedCellsCache_loop_cleared.
Qed.

Lemma invalidate_dependents_cleared self s s' :
  invalidate_dependents self s = Ret () s' → cleared s s'.
Proof.
  unfold invalidate_dependents. destruct (s !! self) as [this|]; [|done].
  destruct (set_empty (ascending_cells_ this)); [intros [= <-]; apply cleared_refl|].
  destruct (InvalidateReferencedCellsCache (S (size s)) self ([self], s))
    as [[] st| | |] eqn:E; try done.
  intros [= <-]. by apply InvalidateReferencedCellsCache_cleared in E.
Qed.

Lemma cleared_cache_of s s' a :
  cleared s s' → cache_of s' a = cache_of s a ∨ cache_of s' a = None.
Proof.
  intros Hc. unfold cache_of. destruct (Hc a) as [-> | ->]; [by left|].
  right. by destruct (s !! a) as [[[[| |f o]|] d x]|].
Qed.

Lemma cleared_value s s' a v :
  cleared s s' → value_ <$> s !! a = Some (Some v) →
  ∃ c, s' !! a = Some c ∧
       (value_ c = Some v ∨
        ∃ f o, v = FormulaCellValue f o ∧ value_ c = Some (FormulaCellValue f None)).
Proof.
  intros Hc Hv. destruct (s !! a) as [c|] eqn:Ha; [|done].
  simpl in Hv. injection Hv as Hv.
  destruct (Hc a) as [-> | ->]; rewrite Ha; simpl.
  - exists c. auto.
  - exists (with_cache None c). split; [done|].
    unfold with_cache. rewrite Hv. destruct v as [| |f o]; simpl; eauto.
Qed.

Lemma Cell_Set_Ret_inv self text s s' :
  Cell_Set self text s = Ret () s' →
  ∃ this tmp s3,
    s !! self = Some this ∧ TryCreateCell text = Returns tmp ∧
    establish_if_formula self (Some tmp)
      (remove_if_connected self (<[self := with_value (Some tmp) this]> s))
    = Ret () s3 ∧
    invalidate_dependents self s3 = Ret () s'.
Proof.
  unfold Cell_Set. destruct (s !! self) as [this|] eqn:Hself; [|done].
  destruct (TryCreateCell text) as [tmp|e]; [|done].
  destruct (HasCircularDependency (S (size s)) s self (Some tmp) [self])
    as [[] visited| | |]; try done.
  unfold bind.
  destruct (establish_if_formula self (Some tmp) _) as [[] s3| | |] eqn:Hest;
    try done.
  intros Hinv. by exists this, tmp, s3.
Qed.

Lemma Cell_GetText_value a s c v :
  s !! a = Some c → value_ c = Some v →
  Cell_GetText a s = Ret (CellValue_GetText v) s.
Proof. intros Ha Hv. unfold Cell_GetText. rewrite Ha, Hv. by destruct v. Qed.

Lemma Cell_GetText_returned a s :
  returned (Cell_GetText a s)
  = match s !! a with
    | Some c => CellValue_GetText <$> value_ c
    | None => None
    end.
Proof.
  unfold Cell_GetText. destruct (s !! a) as [c|]; [|done].
  by destruct (value_ c) as [[| |f o]|].
Qed.

(** The value of the edited cell after a successful [Set]. *)
Lemma Cell_Set_value self text s s' :
  Cell_Set self text s = Ret () s' →
  ∃ tmp c, TryCreateCell text = Returns tmp ∧ s' !! self = Some c ∧
           (value_ c = Some tmp ∨
            ∃ f o, tmp = FormulaCellValue f o ∧
                   value_ c = Some (FormulaCellValue f None)).
Proof.
  intros (this & tmp & s3 & Hself & Htmp & Hest & Hinv)%Cell_Set_Ret_inv.
  apply invalidate_dependents_cleared in Hinv.
  pose proof (Set_value_steps _ _ _ _ _ Hself Hest self) as Hv.
  rewrite decide_True in Hv by done.
  destruct (cleared_value _ _ _ _ Hinv Hv) as (c & Hc & Hvalue).
  by exists tmp, c.
Qed.

(** X4 — round trip of the text: after a successful [Set], [GetText] on
    the cell returns the text of the value that [TryCreateCell] made of the
    input; for an input that is not a formula this is the input itself,
    a leading apostrophe included. *)
Theorem Set_then_GetText self text s s' :
  Cell_Set self text s = Ret () s' →
  (∃ tmp, TryCreateCell text = Returns tmp ∧
          Cell_GetText self s' = Ret (CellValue_GetText tmp) s') ∧
  ((∀ body, body ≠ "" → text ≠ String FORMULA_SIGN body) →
   Cell_GetText self s' = Ret text s').
Proof.
  intros (tmp & c & Htmp & Hc & Hvalue)%Cell_Set_value.
  assert (Htext : Cell_GetText self s' = Ret (CellValue_GetText tmp) s').
  { destruct Hvalue as [Hvalue|(f & o & -> & Hvalue)];
      by rewrite (Cell_GetText_value _ _ _ _ Hc Hvalue). }
  split; [by exists tmp|].
  intros Hplain. rewrite Htext. rewrite (TryCreateCell_not_formula _ Hplain) in Htmp.
  injection Htmp as <-. by destruct text.
Qed.

(** X5 — an edit leaves the texts of the other cells alone: after a
    successful [Set] on a cell, [GetText] on every other cell returns what
    it returned before. *)
Theorem Set_keeps_other_texts self text s s' a :
  Cell_Set self text s = Ret () s' → a ≠ self →
  returned (Cell_GetText a s') = returned (Cell_GetText a s).
Proof.
  intros (this & tmp & s3 & Hself & Htmp & Hest & Hinv)%Cell_Set_Ret_inv Hne.
  apply invalidate_dependents_cleared in Hinv.
  pose proof (Set_value_steps _ _ _ _ _ Hself Hest a) as Hv.
  rewrite decide_False in Hv by done.
  rewrite !Cell_GetText_returned.
  destruct (Hinv a) as [-> | ->].
  - destruct (s3 !! a) as [c3|], (s !! a) as [c|]; simplify_eq/=; try done.
    by rewrite Hv.
  - destruct (s3 !! a) as [c3|], (s !! a) as [c|]; simplify_eq/=; try done.
    unfold with_cache. rewrite <- Hv.
    destruct (value_ c3) as [[| |f o]|] eqn:E3; simpl; by rewrite ?E3.
Qed.

(** X6 — [Set] fills no cache: after a successful [Set] the cache of the
    edited cell is empty, and the cache of every other cell is what it was
    or empty. *)
Theorem Set_fills_no_cache self text s s' :
  Cell_Set self text s = Ret () s' →
  cache_of s' self = None ∧
  ∀ a, a ≠ self → cache_of s' a = cache_of s a ∨ cache_of s' a = None.
Proof.
  intros Hset. split.
  - destruct (Cell_Set_value _ _ _ _ Hset) as (tmp & c & Htmp & Hc & Hvalue).
    unfold cache_of. rewrite Hc.
    destruct Hvalue as [Hvalue|(f & o & -> & Hvalue)]; rewrite Hvalue; [|done].
    destruct tmp as [| |f o]; try done.
    unfold TryCreateCell in Htmp. destruct text as [|front body]; [done|].
    destruct (_ && _); [|done]. by destruct (ParseFormula body); simplify_eq.
  - apply Cell_Set_Ret_inv in Hset
      as (this & tmp & s3 & Hself & Htmp & Hest & Hinv).
    intros a Hne. apply invalidate_dependents_cleared in Hinv.
    pose proof (Set_value_steps _ _ _ _ _ Hself Hest a) as Hv.
    rewrite decide_False in Hv by done.
    assert (cache_of s3 a = cache_of s a) as <-.
    { unfold cache_of.
      destruct (s3 !! a) as [c3|], (s !! a) as [c|]; simplify_eq/=; try done.
      by rewrite Hv. }
    by apply cleared_cache_of.
Qed.

(** X7 — the edges after an edit: in a state reached from the empty sheet,
    a successful [Set] leaves the cell with exactly the referenced cells
    of its new value in its descending set and itself in the ascending
    set of exactly those cells, and changes no edge between other
    cells. *)
Theorem Set_attaches_references ops s self text s' :
  perform_all ops ∅ = Some s →
  Cell_Set self text s = Ret () s' →
  ∃ tmp, TryCreateCell text = Returns tmp ∧
    (∀ b, out_edge s' self b ↔ b ∈ refs_of (Some tmp)) ∧
    (∀ b, in_edge s' b self ↔ b ∈ refs_of (Some tmp)) ∧
    (∀ a b, a ≠ self → (out_edge s' a b ↔ out_edge s a b)) ∧
    (∀ a b, a ≠ self → (in_edge s' b a ↔ in_edge s b a)).
Proof.
  intros Hops Hset. apply perform_all_reaches_Inv in Hops as [_ _ Hs _].
  apply Cell_Set_steps in Hset
    as (tmp & visited & _ & Htmp & _ & _ & _ & _ & Hout & Hin).
  2:{ intros b. apply Hs. }
  exists tmp. split; [done|]. split; [|split; [|split]].
  - intros b. rewrite Hout. tauto.
  - intros b. rewrite Hin. tauto.
  - intros a b Hne. rewrite Hout. tauto.
  - intros a b Hne. rewrite Hin. tauto.
Qed.

(** X8 — plain text is always accepted: in a state reached from the empty
    sheet, [Set] on an existing cell with a text that is not an equals sign
    followed by something returns; it neither throws nor dereferences a
    null pointer. *)
Theorem Set_plain_text_returns ops s self text :
  perform_all ops ∅ = Some s →
  is_Some (s !! self) →
  (∀ body, body ≠ "" → text ≠ String FORMULA_SIGN body) →
  ∃ s', Cell_Set self text s = Ret () s'.
Proof.
  intros Hops Hself Hplain. apply perform_all_reaches_Inv in Hops.
  pose proof (TryCreateCell_not_formula _ Hplain) as Htmp.
  eapply Cell_Set_returns; [done|done|exact Htmp| |].
  - intros r Hr. by destruct text; apply elem_of_nil in Hr.
  - intros r Hr. by destruct text; apply elem_of_nil in Hr.
Qed.

(** ** [Clear] *)

Lemma size_alter_cell (g : Cell → Cell) a s : size (alter g a s) = size s.
Proof.
  rewrite <- !(size_dom (D := gset Position)). by rewrite dom_alter_L.
Qed.

Lemma remove_if_connected_with_value self this v s :
  s !! self = Some this →
  remove_if_connected self (<[self := with_value v this]> s)
  = alter (with_value v) self (remove_if_connected self s).
Proof.
  intros Hself.
  assert (Hs1 : <[self := with_value v this]> s !! self = Some (with_value v this))
    by apply lookup_insert_eq.
  unfold remove_if_connected. rewrite Hs1, Hself. simpl.
  apply map_eq. intros q. destruct (set_empty (descending_cells_ this)).
  - rewrite lookup_insert, lookup_alter. case_decide; [subst|done].
    by rewrite Hself.
  - rewrite (RemoveOldConnections_lookup _ _ _ _ Hs1).
    destruct (decide (q = self)) as [->|Hne].
    + rewrite lookup_alter_eq, (RemoveOldConnections_lookup _ _ _ _ Hself),
        lookup_insert_eq, Hself. simpl.
      by rewrite (decide_True (P := self = self)).
    + rewrite lookup_alter_ne, (RemoveOldConnections_lookup _ _ _ _ Hself),
        lookup_insert_ne by done.
      destruct (s !! q); simpl; [|done]. by rewrite (decide_False (P := q = self)).
Qed.

Section value_aside.
Context (self : Position) (v : option CellValue).

Local Abbreviation aside := (value_aside self v).

Lemma InvalidateReferencedCellsCache_loop_aside descend :
  (∀ cell st, self ∈ st.1 → descend cell (aside st) = then_state aside (descend cell st)) →
  (∀ cell st st', descend cell st = Ret () st' → ∀ x, x ∈ st.1 → x ∈ st'.1) →
  ∀ cells st, self ∈ st.1 →
    InvalidateReferencedCellsCache_loop descend cells (aside st)
    = then_state aside (InvalidateReferencedCellsCache_loop descend cells st).
Proof.
  intros Hd Hmono cells. induction cells as [|cell rest IH]; intros st Hin;
    simpl; [done|].
  case_decide as Hvis; [done|].
  assert (cell ≠ self) as Hne by (by intros ->).
  rewrite lookup_alter_ne by done.
  destruct (st.2 !! cell) as [c|]; [|done].
  assert (Hskip : InvalidateReferencedCellsCache_loop descend rest
                    (cell :: st.1, alter (with_value v) self st.2)
                  = then_state aside
                      (InvalidateReferencedCellsCache_loop descend rest (cell :: st.1, st.2))).
  { apply (IH (cell :: st.1, st.2)). by right. }
  destruct (TryInterpretAsFormula (value_ c)) as [[f [x|]]|]; [|done|done].
  rewrite alter_alter_ne by done.
  pose proof (Hd cell (cell :: st.1, alter (with_cache None) cell st.2)) as E.
  unfold value_aside at 1 in E. cbn [fst snd] in E. rewrite E by by right.
  destruct (descend cell (cell :: st.1, alter (with_cache None) cell st.2))
    as [[] st1| | |] eqn:E1; try done.
  simpl. apply IH. apply (Hmono _ _ _ E1). by right.
Qed.

Lemma InvalidateReferencedCellsCache_aside fuel cell st :
  self ∈ st.1 →
  InvalidateReferencedCellsCache fuel cell (aside st)
  = then_state aside (InvalidateReferencedCellsCache fuel cell st).
Proof.
  revert cell st. induction fuel as [|fuel IH]; intros cell st Hin; simpl; [done|].
  destruct (decide (cell = self)) as [->|Hne].
  - rewrite lookup_alter_eq.
    destruct (st.2 !! self) as [this|]; simpl; [|done].
    apply InvalidateReferencedCellsCache_loop_aside; [by intros; apply IH| |done].
    intros c st0 st'. apply InvalidateReferencedCellsCache_mono.
  - rewrite lookup_alter_ne by done.
    destruct (st.2 !! cell) as [this|]; simpl; [|done].
    apply InvalidateReferencedCellsCache_loop_aside; [by intros; apply IH| |done].
    intros c st0 st'. apply InvalidateReferencedCellsCache_mono.
Qed.

Lemma invalidate_dependents_aside s :
  invalidate_dependents self (alter (with_value v) self s)
  = then_state (alter (with_value v) self) (invalidate_dependents self s).
Proof.
  unfold invalidate_dependents. rewrite lookup_alter_eq.
  destruct (s !! self) as [this|]; [|done]. cbn [fmap option_fmap option_map].
  change (ascending_cells_ (with_value v this)) with (ascending_cells_ this).
  destruct (set_empty (ascending_cells_ this)); [done|].
  rewrite size_alter_cell.
  pose proof (InvalidateReferencedCellsCache_aside (S (size s)) self ([self], s)) as E.
  unfold value_aside at 1 in E. cbn [fst snd] in E. rewrite E by by left.
  by destruct (InvalidateReferencedCellsCache (S (size s)) self ([self], s))
    as [[] st| e st| |].
Qed.

End value_aside.

(** [Clear] on a cell that holds a value is [Set] with the empty text. *)
Lemma Cell_Clear_as_Set self s this :
  s !! self = Some this → is_Some (value_ this) →
  Cell_Clear self s = Cell_Set self "" s.
Proof.
  intros Hself [value Hvalue]. unfold Cell_Clear, Cell_Set.
  rewrite Hself, Hvalue. simpl. unfold bind. simpl.
  rewrite (remove_if_connected_with_value _ _ _ _ Hself), invalidate_dependents_aside.
  destruct (invalidate_dependents self (remove_if_connected self s))
    as [[] s2|e s2| |] eqn:E; try done.
  by apply invalidate_dependents_no_throw in E.
Qed.

(** X9 — [Clear] and [Set] compose: on a cell that holds a value, be it
    Empty, Text or Formula, [Clear] does what [Set] does with the empty
    text: the same resulting sheet, in every state. *)
Theorem Clear_is_Set_empty self s this :
  s !! self = Some this → is_Some (value_ this) →
  Cell_Clear self s = Cell_Set self "" s.
Proof. apply Cell_Clear_as_Set. Qed.

(** X10 — what [Clear] leaves: in a state reached from the empty sheet,
    [Clear] on an existing cell returns; afterwards the cell reads as the
    empty text and as the number 0, it has no descending cell and is in no
    ascending set, its own ascending set is kept, and the descending sets
    of the other cells are untouched. *)
Theorem Clear_empties_cell ops s self :
  perform_all ops ∅ = Some s →
  is_Some (s !! self) →
  ∃ s', Cell_Clear self s = Ret () s' ∧
        Cell_GetText self s' = Ret "" s' ∧
        Cell_GetValue 1 self s' = Ret (VDouble zero) s' ∧
        (∀ b, ¬ out_edge s' self b) ∧
        (∀ b, ¬ in_edge s' b self) ∧
        (∀ a, in_edge s' self a ↔ in_edge s self a) ∧
        (∀ a b, a ≠ self → (out_edge s' a b ↔ out_edge s a b)).
Proof.
  intros Hops [this Hself]. apply perform_all_reaches_Inv in Hops as HI.
  pose proof HI as [Hv Hr Hs Ha].
  assert (Hloop : ∀ a, in_edge s self a → a ≠ self).
  { intros a Hin ->. apply (Ha self). apply tc_once. by apply Hs. }
  destruct (value_ this) as [value|] eqn:Hvalue.
  - rewrite (Cell_Clear_as_Set _ _ _ Hself) by (rewrite Hvalue; eauto).
    destruct (Cell_Set_returns self "" EmptyCellValue s HI) as [s' Hset];
      [eauto|done| | |].
    { intros r Hnil. by apply elem_of_nil in Hnil. }
    { intros r Hnil. by apply elem_of_nil in Hnil. }
    exists s'. split; [done|].
    destruct (Cell_Set_value _ _ _ _ Hset) as (tmp & c & Htmp & Hc & Hval).
    injection Htmp as <-. destruct Hval as [Hval|(f & o & ? & _)]; [|done].
    apply Cell_Set_steps in Hset
      as (tmp & visited & _ & Htmp & _ & _ & _ & _ & Hout & Hin).
    2:{ intros b. apply Hs. }
    injection Htmp as <-.
    split; [by rewrite (Cell_GetText_value _ _ _ _ Hc Hval)|].
    split; [simpl; by rewrite Hc, Hval|].
    split; [|split; [|split]].
    + intros b. rewrite Hout. intros [[_ ?]|[_ Hb]]; [done|].
      by apply elem_of_nil in Hb.
    + intros b. rewrite Hin. intros [[_ ?]|[_ Hb]]; [done|].
      by apply elem_of_nil in Hb.
    + intros a. rewrite Hin. split.
      * intros [[? _]|[_ Hb]]; [done|]. by apply elem_of_nil in Hb.
      * intros Hin'. left. split; [done|]. by apply Hloop.
    + intros a b Hne. rewrite Hout. split; [|tauto].
      intros [[? _]|[? _]]; done.
  - unfold Cell_Clear. rewrite Hself, Hvalue.
    destruct (alter_with_value_edges self this (Some EmptyCellValue) s Hself)
      as (Hout & Hin & _ & _ & Hnew).
    set (s' := alter (with_value (Some EmptyCellValue)) self s) in *.
    assert (Hnone : ∀ b, ¬ out_edge s self b).
    { intros b Hb. apply Hr in Hb as (c & Hc & Hb). simplify_eq.
      unfold refs_of in Hb. rewrite Hvalue in Hb. by apply elem_of_nil in Hb. }
    exists s'. split; [done|].
    destruct (s' !! self) as [c|] eqn:Hc; [|done].
    simpl in Hnew. injection Hnew as Hnew.
    split; [by rewrite (Cell_GetText_value _ _ _ _ Hc Hnew)|].
    split; [simpl; by rewrite Hc, Hnew|].
    split; [|split; [|split]].
    + intros b. rewrite Hout. apply Hnone.
    + intros b. rewrite Hin, <- Hs. apply Hnone.
    + intros a. apply Hin.
    + intros a b _. apply Hout.
Qed.

(** ** Reading values *)

Lemma CellValueGetter_Throws value e :
  CellValueGetter value = Throws e → ∃ error, e = FormulaErrorThrown error.
Proof.
  destruct value as [text|d|error]; simpl; [|done|intros [= <-]; eauto].
  destruct (regex_match text kDoubleValuePattern); [|intros [= <-]; eauto].
  destruct (stod text); [done|intros [= <-]; eauto].
Qed.

Lemma get_value_throw getv position s e s' :
  (∀ q s0 e0 s1, getv q s0 = Throw e0 s1 → e0 = InvalidPositionException "") →
  get_value getv position s = Throw e s' →
  (∃ error, e = FormulaErrorThrown error) ∨ e = InvalidPositionException "".
Proof.
  intros Hg. unfold get_value, Sheet_GetCell.
  destruct (IsValid position); [|intros [= <- _]; by right].
  destruct (s !! position) as [cell|]; [|done].
  destruct (getv position s) as [value s1|e1 s1| |] eqn:E; try done.
  - destruct (CellValueGetter value) as [d|e1] eqn:Ev; [done|].
    intros [= <- _]. left. by eapply CellValueGetter_Throws.
  - intros [= <- _]. right. by eapply Hg.
Qed.

Lemma run_Execute_throw lookup t s e s' :
  (∀ q s0 e0 s1, lookup q s0 = Throw e0 s1 →
     (∃ error, e0 = FormulaErrorThrown error) ∨ e0 = InvalidPositionException "") →
  run_Execute lookup t s = Throw e s' →
  (∃ error, e = FormulaErrorThrown error) ∨ e = InvalidPositionException "".
Proof.
  intros Hl. revert s. induction t as [d|error|position k IH]; intros s; simpl.
  - done.
  - intros [= <- _]. eauto.
  - destruct (lookup position s) as [d s1|e1 s1| |] eqn:E; try done.
    + apply IH.
    + intros [= <- _]. by eapply Hl.
Qed.

Lemma Cell_GetValue_throw fuel self s e s' :
  Cell_GetValue fuel self s = Throw e s' → e = InvalidPositionException "".
Proof.
  revert self s e s'. induction fuel as [|fuel IH]; intros self s e s'; simpl;
    [done|].
  destruct (s !! self) as [this|]; [|done].
  destruct (value_ this) as [[| text | formula [v|]]|]; try done.
  unfold Formula_Evaluate.
  destruct (run_Execute (get_value (Cell_GetValue fuel)) (Execute (ast_ formula)) s)
    as [d s1|e1 s1| |] eqn:E; try done.
  apply run_Execute_throw in E.
  2:{ intros q s0 e0 s2. apply get_value_throw. apply IH. }
  destruct E as [[error ->]| ->]; [done|]. by intros [= <- _].
Qed.

(** X11 — evaluation errors stay values: [GetValue] throws no
    [FormulaError]; the only exception that leaves it is the
    InvalidPositionException of a lookup at a position outside the grid. *)
Theorem GetValue_throws_only fuel self s e s' :
  Cell_GetValue fuel self s = Throw e s' → e = InvalidPositionException "".
Proof. apply Cell_GetValue_throw. Qed.

Lemma caches_kept_trans s1 s2 s3 :
  caches_kept s1 s2 → caches_kept s2 s3 → caches_kept s1 s3.
Proof. intros H12 H23 a v Ha. by apply H23, H12. Qed.

Lemma caches_kept_refl s : caches_kept s s.
Proof. by intros a v. Qed.

Lemma run_Execute_caches_kept lookup :
  (∀ position s o s', lookup position s = o → state_after o = Some s' →
     caches_kept s s') →
  ∀ t s o s', run_Execute lookup t s = o → state_after o = Some s' →
    caches_kept s s'.
Proof.
  intros Hl t. induction t as [d|e|position k IH]; intros s o s' <-; simpl.
  - intros [= ->]; apply caches_kept_refl.
  - intros [= ->]; apply caches_kept_refl.
  - destruct (lookup position s) as [d s1| e s1| |] eqn:E; simpl; try done.
    + intros Hs'. eapply caches_kept_trans; [by apply (Hl _ _ _ s1 E)|].
      by apply (IH d s1 _ s' eq_refl).
    + intros [= <-]. by apply (Hl _ _ _ s1 E).
Qed.

Lemma get_value_caches_kept getv :
  (∀ position s o s', getv position s = o → state_after o = Some s' →
     caches_kept s s') →
  ∀ position s o s', get_value getv position s = o → state_after o = Some s' →
    caches_kept s s'.
Proof.
  intros Hg position s o s' <-. unfold get_value.
  destruct (Sheet_GetCell s position) as [[cell|]|e]; simpl.
  - destruct (getv position s) as [v s1| e s1| |] eqn:E; simpl; try done.
    + destruct (CellValueGetter v); simpl; intros [= <-];
        by apply (Hg position s _ s1 E).
    + intros [= <-]. by apply (Hg position s _ s1 E).
  - intros [= ->]; apply caches_kept_refl.
  - intros [= ->]; apply caches_kept_refl.
Qed.

Lemma Formula_Evaluate_caches_kept getv f :
  (∀ position s o s', getv position s = o → state_after o = Some s' →
     caches_kept s s') →
  ∀ s o s', Formula_Evaluate getv f s = o → state_after o = Some s' →
    caches_kept s s'.
Proof.
  intros Hg s o s' <-. unfold Formula_Evaluate.
  destruct (run_Execute (get_value getv) (Execute (ast_ f)) s)
    as [d s1| e s1| |] eqn:E; simpl; try done.
  - intros [= <-].
    by apply (run_Execute_caches_kept _ (get_value_caches_kept _ Hg) _ _ _ _ E).
  - destruct e; simpl; intros [= <-];
      by apply (run_Execute_caches_kept _ (get_value_caches_kept _ Hg) _ _ _ _ E).
Qed.

Lemma Cell_GetValue_caches_kept fuel self s o s' :
  Cell_GetValue fuel self s = o → state_after o = Some s' → caches_kept s s'.
Proof.
  revert self s o s'. induction fuel as [|fuel IH]; intros self s o s' <-; simpl.
  - done.
  - destruct (s !! self) as [this|] eqn:Hself; [|done].
    destruct (value_ this) as [[| text | formula [v|]]|] eqn:Hvalue; simpl;
      try done; try (intros [= ->]; apply caches_kept_refl).
    destruct (Formula_Evaluate (Cell_GetValue fuel) formula s)
      as [[value|error] s1| e s1| |] eqn:E; simpl; try done.
    + intros [= <-] a v Ha.
      pose proof (Formula_Evaluate_caches_kept _ _ IH _ _ s1 E eq_refl a v Ha) as H1.
      destruct (decide (a = self)) as [->|Hne].
      * unfold cache_of in Ha. by rewrite Hself, Hvalue in Ha.
      * unfold cache_of. rewrite lookup_alter_ne by done. exact H1.
    + intros [= <-]. by apply (Formula_Evaluate_caches_kept _ _ IH _ _ _ E).
    + intros [= <-]. by apply (Formula_Evaluate_caches_kept _ _ IH _ _ _ E).
Qed.

(** X12 — reading writes caches only and never overwrites one: whatever
    state [GetValue] leaves, on return or on a throw, it has the same
    cells with the same values, formulas and edge sets as before, and every
    cache that was filled still holds its number. *)
Theorem GetValue_only_fills_caches fuel self s o s' :
  Cell_GetValue fuel self s = o → state_after o = Some s' →
  skeleton s' = skeleton s ∧ caches_kept s s'.
Proof.
  intros Ho Hs'. split.
  - by eapply Cell_GetValue_skeleton.
  - by eapply Cell_GetValue_caches_kept.
Qed.

(** X13 — a read that gave a text or a number is repeatable: reading the
    cell again in the state the read left, with any positive fuel, returns
    the same value and changes nothing. *)
Theorem GetValue_repeatable fuel fuel' self s value s1 :
  Cell_GetValue (S fuel) self s = Ret value s1 →
  (∀ error, value ≠ VError error) →
  Cell_GetValue (S fuel') self s1 = Ret value s1.
Proof.
  simpl. destruct (s !! self) as [this|] eqn:Hself; [|done].
  destruct (value_ this) as [[| text | formula [v|]]|] eqn:Hvalue; try done.
  - intros [= <- <-] _. by rewrite Hself, Hvalue.
  - intros [= <- <-] _. by rewrite Hself, Hvalue.
  - intros [= <- <-] _. by rewrite Hself, Hvalue.
  - destruct (Formula_Evaluate (Cell_GetValue fuel) formula s)
      as [[d|error] s0| e s0| |] eqn:E; try done.
    + intros [= <- <-] _.
      pose proof (Formula_Evaluate_skeleton _ _ (Cell_GetValue_skeleton fuel)
                    _ _ s0 E eq_refl) as Hsk.
      apply (skeleton_lookup _ _ self) in Hsk. rewrite Hself in Hsk.
      rewrite lookup_alter_eq.
      destruct (s0 !! self) as [[[[| |f o]|] d0 x]|]; simpl in *;
        destruct this as [v0 d1 x0]; simpl in *; simplify_eq; done.
    + intros [= <- _] Hne. by destruct (Hne error).
Qed.

(** X14 — a position without a cell and a cell that is Empty read alike:
    the lookup of a formula at a valid position returns the number 0 in
    both cases and leaves the sheet alone. *)
Theorem lookup_of_nothing_is_zero fuel position s :
  IsValid position = true →
  (s !! position = None ∨
   ∃ c, s !! position = Some c ∧ value_ c = Some EmptyCellValue) →
  get_value (Cell_GetValue (S fuel)) position s = Ret zero s.
Proof.
  intros Hvalid [Hnone|(c & Hc & Hvalue)].
  - by apply get_value_absent.
  - unfold get_value, Sheet_GetCell. rewrite Hvalid, Hc. simpl.
    by rewrite Hc, Hvalue.
Qed.

(** X15 — strict decimals are converted: for a text that is a strict
    decimal the visitor returns what [std::stod] makes of it, and raises
    Value only if the conversion itself throws. *)
Theorem CellValueGetter_converts_strict_decimals text :
  regex_match text strict_decimal = true →
  CellValueGetter (VString text)
  = match stod text with
    | Some d => Returns d
    | None => Throws (FormulaErrorThrown (mkFormulaError Category.Value))
    end.
Proof.
  intros Hstrict. simpl.
  by rewrite (strict_decimal_matches_pattern _ Hstrict).
Qed.


(** ** The referenced cells of a parsed formula *)

(** X17 — the referenced cells of a parsed formula are sorted and are
    exactly the cells of the tree; when the tree lists its cells in order,
    no position is repeated. *)
Theorem ParseFormula_referenced_cells expression f :
  ParseFormula expression = Some f →
  Sorted Position_le (Formula_GetReferencedCells f) ∧
  (∀ position,
     position ∈ Formula_GetReferencedCells f ↔ position ∈ GetCells (ast_ f)) ∧
  (Sorted Position_le (GetCells (ast_ f)) → NoDup (Formula_GetReferencedCells f)).
Proof.
  unfold ParseFormula. intros Hf.
  destruct (Formula_new_sorted _ _ Hf) as [Hsorted Helems].
  split; [done|]. split; [done|]. by apply (Formula_new_NoDup expression).
Qed.

(** ** The reachable sheets *)

(** X18 — the edge sets follow the formulas: in every state reached from
    the empty sheet, every cell sits at a valid position, the descending
    set of a cell holds exactly the positions its formula refers to, every
    such position holds a cell, and no formula refers to its own cell,
    directly or through other formulas. *)
Theorem reachable_edges_follow_formulas ops s :
  perform_all ops ∅ = Some s →
  (∀ a, is_Some (s !! a) → IsValid a = true) ∧
  (∀ a b, out_edge s a b ↔ ref_edge s a b) ∧
  (∀ a b, ref_edge s a b → is_Some (s !! b) ∧ IsValid b = true) ∧
  (∀ a, ¬ tc (ref_edge s) a a).
Proof.
  intros HI%perform_all_reaches_Inv.
  pose proof (Inv_refs_closed _ HI) as Hclosed. destruct HI as [Hv Hr Hs Ha].
  split; [done|]. split; [done|]. split; [done|].
  intros a Hc. apply (Ha a). eapply tc_impl_edges; [|exact Hc].
  intros x y. apply Hr.
Qed.

(** ** Invalidation stays among the dependents *)

Lemma InvalidateReferencedCellsCache_far s0 fuel self st st' a :
  InvalidateReferencedCellsCache fuel self st = Ret () st' →
  skeleton st.2 = skeleton s0 →
  ¬ tc (in_edge s0) self a →
  st'.2 !! a = st.2 !! a.
Proof.
  revert self st st'. induction fuel as [|fuel IH]; intros self st st'; simpl;
    [done|].
  destruct (st.2 !! self) as [this|] eqn:Hself; [|done].
  intros Hloop Hsk Hfar.
  assert (Hcells : ∀ cell, cell ∈ ascending_cells_ this → ¬ rtc (in_edge s0) cell a).
  { intros cell Hcell Hpath. apply Hfar.
    eapply tc_rtc_r; [|exact Hpath]. apply tc_once.
    apply (skeleton_in_edge st.2); [done|]. by exists this. }
  clear Hself Hfar. revert st st' Hloop Hsk.
  induction (ascending_cells_ this) as [|cell rest IHrest]; intros st st'; simpl.
  - by intros [= <-].
  - case_decide; [by intros [= <-]|].
    assert (Hne : a ≠ cell).
    { intros ->. by apply (Hcells cell); [left|]. }
    assert (Hcell : ¬ tc (in_edge s0) cell a).
    { intros Hpath. apply (Hcells cell); [by left|]. by apply tc_rtc. }
    assert (Hrest : ∀ x, x ∈ rest → ¬ rtc (in_edge s0) x a).
    { intros x Hx. apply Hcells. by right. }
    destruct (st.2 !! cell) as [c|]; [|done].
    destruct (TryInterpretAsFormula (value_ c)) as [[f [v|]]|].
    + destruct (InvalidateReferencedCellsCache fuel cell
                  (cell :: st.1, alter (with_cache None) cell st.2))
        as [[] st1| | |] eqn:E; try done.
      intros Hloop Hsk.
      assert (Hsk1 : skeleton (alter (with_cache None) cell st.2) = skeleton s0).
      { by rewrite skeleton_alter_cache. }
      rewrite (IHrest Hrest st1 st' Hloop).
      * rewrite (IH _ _ _ E Hsk1 Hcell). simpl. by rewrite lookup_alter_ne.
      * rewrite (InvalidateReferencedCellsCache_skeleton _ _ _ _ st1 E eq_refl).
        exact Hsk1.
    + intros Hloop Hsk. by rewrite (IHrest Hrest _ st' Hloop).
    + intros Hloop Hsk. by rewrite (IHrest Hrest _ st' Hloop).
Qed.

Lemma invalidate_dependents_far self s s' a :
  invalidate_dependents self s = Ret () s' →
  ¬ tc (in_edge s) self a → s' !! a = s !! a.
Proof.
  unfold invalidate_dependents. destruct (s !! self) as [this|]; [|done].
  destruct (set_empty (ascending_cells_ this)); [by intros [= <-]|].
  destruct (InvalidateReferencedCellsCache (S (size s)) self ([self], s))
    as [[] st| | |] eqn:E; try done.
  intros [= <-] Hfar.
  by apply (InvalidateReferencedCellsCache_far s _ _ _ _ a E).
Qed.

Lemma tc_flip_edges (R1 R2 : relation Position) a b :
  (∀ x y, R1 x y → R2 y x) → tc R1 a b → tc R2 b a.
Proof.
  intros HR. induction 1 as [x y Hxy|x y z Hxy _ IH].
  - by apply tc_once, HR.
  - eapply tc_r; [exact IH|by apply HR].
Qed.

(** X19 — an edit empties caches among the dependents only: in a state
    reached from the empty sheet, a successful [Set] leaves the cache of
    every other cell whose formula does not refer to the edited cell,
    directly or through other formulas, as it was. *)
Theorem Set_keeps_unrelated_caches ops s self text s' a :
  perform_all ops ∅ = Some s →
  Cell_Set self text s = Ret () s' →
  a ≠ self → ¬ tc (ref_edge s') a self →
  cache_of s' a = cache_of s a.
Proof.
  intros HI%perform_all_reaches_Inv Hset Hne Hfar.
  pose proof (Cell_Set_Inv _ _ _ _ HI Hset) as [_ Hr' Hs' _].
  apply Cell_Set_Ret_inv in Hset as (this & tmp & s3 & Hself & Htmp & Hest & Hinv).
  pose proof (invalidate_dependents_skeleton _ _ _ Hinv) as Hsk.
  pose proof (Set_value_steps _ _ _ _ _ Hself Hest a) as Hv.
  rewrite decide_False in Hv by done.
  assert (H3 : s' !! a = s3 !! a).
  { apply (invalidate_dependents_far self); [done|].
    intros Hpath. apply Hfar.
    eapply tc_flip_edges; [|exact Hpath].
    intros x y Hxy. apply Hr', Hs'. by apply (skeleton_in_edge s3). }
  unfold cache_of. rewrite H3.
  destruct (s3 !! a) as [c3|], (s !! a) as [c|]; simplify_eq/=; try done.
  by rewrite Hv.
Qed.

(** ** Evaluation ends *)

Lemma skeleton_value s1 s2 a c1 :
  skeleton s1 = skeleton s2 → s1 !! a = Some c1 →
  ∃ c2, s2 !! a = Some c2 ∧
        match value_ c1, value_ c2 with
        | None, None => True
        | Some EmptyCellValue, Some EmptyCellValue => True
        | Some (TextCellValue t1), Some (TextCellValue t2) => t1 = t2
        | Some (FormulaCellValue f1 _), Some (FormulaCellValue f2 _) => f1 = f2
        | _, _ => False
        end.
Proof.
  intros E Hc. apply (skeleton_lookup _ _ a) in E. rewrite Hc in E.
  destruct (s2 !! a) as [c2|]; [|done]. exists c2. split; [done|].
  injection E as E. apply (f_equal value_) in E.
  destruct c1 as [[[| |f o]|] d x], c2 as [[[| |f2 o2]|] d2 x2];
    simpl in *; try done; by simplify_eq.
Qed.

Lemma NoDup_length_le_size s (l : list Position) :
  NoDup l → (∀ x, x ∈ l → is_Some (s !! x)) → (List.length l ≤ size s)%nat.
Proof.
  intros Hnodup Hl.
  rewrite <- (size_list_to_set (C := gset Position) l Hnodup).
  rewrite <- (size_dom (D := gset Position) s).
  apply subseteq_size. intros x Hx. apply elem_of_dom.
  apply Hl. by apply elem_of_list_to_set in Hx.
Qed.

Lemma run_Execute_evaluated s0 lookup cells :
  (∀ position s, position ∈ cells → skeleton s = skeleton s0 →
     ∃ s', skeleton s' = skeleton s0 ∧
           ((∃ d, lookup position s = Ret d s') ∨
            (∃ error, lookup position s = Throw (FormulaErrorThrown error) s'))) →
  ∀ t s, looks_up_only cells t → skeleton s = skeleton s0 →
    ∃ s', (∃ d, run_Execute lookup t s = Ret d s') ∨
          (∃ error, run_Execute lookup t s = Throw (FormulaErrorThrown error) s').
Proof.
  intros Hl t. induction t as [d|error|position k IH]; intros s Ht Hsk; simpl.
  - exists s. left. by exists d.
  - exists s. right. by exists error.
  - destruct Ht as [Hin Hk].
    destruct (Hl position s Hin Hsk) as (s1 & Hsk1 & [[d ->]|[error ->]]).
    + by apply IH.
    + exists s1. right. by exists error.
Qed.

Lemma Cell_GetValue_evaluated s0 :
  Inv s0 →
  (∀ a c, s0 !! a = Some c → is_Some (value_ c)) →
  (∀ a c f o, s0 !! a = Some c → value_ c = Some (FormulaCellValue f o) →
     looks_up_only (Formula_GetReferencedCells f) (Execute (ast_ f))) →
  ∀ fuel self s path,
    skeleton s = skeleton s0 → is_Some (s !! self) →
    NoDup (self :: path) →
    (∀ x, x ∈ path → is_Some (s0 !! x) ∧ tc (ref_edge s0) x self) →
    (size s0 < fuel + List.length path)%nat →
    ∃ v s', Cell_GetValue fuel self s = Ret v s'.
Proof.
  intros HI Hval Hcontract. pose proof (Inv_refs_closed _ HI) as Hclosed.
  assert (Hacyclic : ∀ a, ¬ tc (ref_edge s0) a a).
  { intros a Hc. apply (inv_acyclic _ HI a). eapply tc_impl_edges; [|exact Hc].
    intros x y. apply (inv_refs _ HI). }
  induction fuel as [|fuel IH]; intros self s path Hsk [this Hself] Hnodup Hpath Hfuel.
  - exfalso.
    assert (List.length (self :: path) ≤ size s0)%nat as Hlen.
    { apply NoDup_length_le_size; [done|].
      intros x [->|Hx]%elem_of_cons; [|by apply Hpath].
      eapply skeleton_is_Some; [exact Hsk|by exists this]. }
    simpl in *. lia.
  - simpl. rewrite Hself.
    destruct (skeleton_value _ _ _ _ Hsk Hself) as (c0 & Hc0 & Hvalue).
    destruct (Hval _ _ Hc0) as [v0 Hv0]. rewrite Hv0 in Hvalue.
    destruct (value_ this) as [[| text | formula [v|]]|] eqn:Hthis; try done;
      try by eexists _, _.
    destruct v0 as [| |f0 o0]; try done. subst f0.
    assert (Hrefs : ∀ position, position ∈ Formula_GetReferencedCells formula →
                      ref_edge s0 self position).
    { intros position Hin. exists c0. split; [done|]. by rewrite Hv0. }
    destruct (run_Execute_evaluated s0 (get_value (Cell_GetValue fuel))
                (Formula_GetReferencedCells formula)) with
      (t := Execute (ast_ formula)) (s := s) as (s1 & [[d Hrun]|[error Hrun]]).
    + intros position s2 Hin Hsk2.
      pose proof (Hrefs _ Hin) as Hedge.
      destruct (Hclosed _ _ Hedge) as [Hpresent Hvalid].
      assert (Hpresent2 : is_Some (s2 !! position)).
      { eapply skeleton_is_Some; [symmetry; exact Hsk2|done]. }
      destruct (IH position s2 (self :: path)) as (v & s' & Hget).
      * done.
      * done.
      * apply NoDup_cons. split; [|done].
        intros [->|Hx]%elem_of_cons.
        -- apply (Hacyclic self). by apply tc_once.
        -- apply (Hacyclic position). eapply tc_r; [|exact Hedge]. by apply Hpath.
      * intros x [->|Hx]%elem_of_cons.
        -- split; [by exists c0|by apply tc_once].
        -- split; [by apply Hpath|]. eapply tc_r; [|exact Hedge]. by apply Hpath.
      * simpl. lia.
      * pose proof (Cell_GetValue_skeleton _ _ _ _ s' Hget eq_refl) as Hsk'.
        exists s'. split; [by rewrite Hsk'|].
        unfold get_value, Sheet_GetCell. rewrite Hvalid.
        destruct Hpresent2 as [c2 ->]. rewrite Hget.
        destruct (CellValueGetter v) as [d|e] eqn:Ev; [left; by exists d|].
        apply CellValueGetter_Throws in Ev as [error ->]. right. by exists error.
    + by apply (Hcontract _ _ _ _ Hc0 Hv0).
    + done.
    + unfold Formula_Evaluate. rewrite Hrun. by eexists _, _.
    + unfold Formula_Evaluate. rewrite Hrun. by eexists _, _.
Qed.

(** X20 — evaluation ends with a value: take a state reached from the
    empty sheet in which every cell has a value and the run of every
    formula asks only for the referenced cells of the formula.  Then
    [GetValue] on an existing cell returns, within a depth of one more than
    the number of cells: it throws nothing, dereferences no null pointer
    and does not recurse for ever. *)
Theorem GetValue_returns ops s self fuel :
  perform_all ops ∅ = Some s →
  (∀ a c, s !! a = Some c → is_Some (value_ c)) →
  (∀ a c f o, s !! a = Some c → value_ c = Some (FormulaCellValue f o) →
     looks_up_only (Formula_GetReferencedCells f) (Execute (ast_ f))) →
  is_Some (s !! self) → (size s < fuel)%nat →
  ∃ v s', Cell_GetValue fuel self s = Ret v s'.
Proof.
  intros HI%perform_all_reaches_Inv Hval Hcontract Hself Hfuel.
  apply (Cell_GetValue_evaluated s HI Hval Hcontract fuel self s []); try done.
  - apply NoDup_singleton.
  - intros x Hx. by apply elem_of_nil in Hx.
  - simpl. lia.
Qed.

(** ** The referenced cells of a formula cell *)

(** X21 — the referenced cells of a formula cell: in a state reached from
    the empty sheet, [GetReferencedCells] on a cell that holds a formula
    returns the referenced cells of the formula and leaves the sheet alone;
    these are exactly the positions of the cell's descending set, and each
    of them holds a cell with this cell in its ascending set. *)
Theorem GetReferencedCells_of_formula_cell ops s self this formula cache :
  perform_all ops ∅ = Some s →
  s !! self = Some this →
  value_ this = Some (FormulaCellValue formula cache) →
  Cell_GetReferencedCells self s = Ret (Formula_GetReferencedCells formula) s ∧
  (∀ b, b ∈ Formula_GetReferencedCells formula ↔ b ∈ descending_cells_ this) ∧
  (∀ b, b ∈ Formula_GetReferencedCells formula →
     ∃ cb, s !! b = Some cb ∧ self ∈ ascending_cells_ cb).
Proof.
  intros [_ Hr Hs _]%perform_all_reaches_Inv Hself Hvalue.
  assert (Hrefs : ∀ b, b ∈ Formula_GetReferencedCells formula ↔ out_edge s self b).
  { intros b. rewrite Hr. split.
    - intros Hb. exists this. split; [done|]. by rewrite Hvalue.
    - intros (c & Hc & Hb). simplify_eq. by rewrite Hvalue in Hb. }
  split; [|split].
  - unfold Cell_GetReferencedCells. by rewrite Hself, Hvalue.
  - intros b. rewrite Hrefs. split.
    + intros (c & Hc & Hb). by simplify_eq.
    + intros Hb. by exists this.
  - intros b Hb. apply Hrefs, Hs in Hb. exact Hb.
Qed.

Lemma tc_first_edge (R : relation Position) a b : tc R a b → ∃ z, R a z.
Proof. intros [x y Hxy|x y z Hxy _]; by exists y. Qed.

Lemma tc_first_step (R : relation Position) a b :
  tc R a b → R a b ∨ ∃ y, R a y ∧ tc R y b.
Proof. intros [x y Hxy|x y z Hxy Hyz]; [by left|right; by exists y]. Qed.

End EngineFacts.

(** * Runs of the engine on the small instance *)

Import Demo.

(** C4 — rendering an error: the printing operator writes the token of
    Div0 for every kind; for Ref and for Value the text is not the token of
    the kind. *)
Theorem print_FormulaError_ignores_kind :
  print_FormulaError "" (mkFormulaError Category.Ref) = "#DIV/0!" ∧
  print_FormulaError "" (mkFormulaError Category.Value) = "#DIV/0!" ∧
  print_FormulaError "" (mkFormulaError Category.Ref) ≠ error_token Category.Ref ∧
  print_FormulaError "" (mkFormulaError Category.Value) ≠ error_token Category.Value.
Proof. repeat split; done. Qed.

(** C5 — coercion of a text during evaluation: the text 1x5 is not a strict
    decimal, the pattern of the code matches it, and the visitor hands it
    to the conversion and returns its number instead of raising Value. *)
Theorem CellValueGetter_takes_any_separator :
  regex_match "1x5" strict_decimal = false ∧
  regex_match "1x5" kDoubleValuePattern = true ∧
  CellValueGetter (VString "1x5") = Returns 1.
Proof. repeat split; reflexivity. Qed.

(** C6 — referenced cells of a formula: for the formula A1+B1+A1, whose
    tree lists A1, B1, A1, the referenced cells are A1, A1, B1: sorted, with
    A1 twice. *)
Theorem Formula_keeps_separated_duplicates :
  GetCells <$> ParseFormulaAST "A1+B1+A1" = Some [A1; B1; A1] ∧
  Formula_GetReferencedCells <$> Formula_new "A1+B1+A1" = Some [A1; A1; B1].
Proof. split; reflexivity. Qed.

(** C10 — referenced cells of a cell without a formula: on a cell holding a
    text and on a cleared cell, [GetReferencedCells] dereferences the null
    pointer that [TryInterpretAsFormula] returns. *)
Theorem GetReferencedCells_without_formula :
  (let! _ := Sheet_SetCell A1 "hello" in Cell_GetReferencedCells A1) ∅ = Undefined ∧
  (let! _ := Sheet_SetCell A1 "hello" in
   let! _ := Sheet_ClearCell A1 in Cell_GetReferencedCells A1) ∅ = Undefined.
Proof. split; reflexivity. Qed.

(** C8 — a formula over a never-set position: in the empty sheet, setting
    A1 to the formula B1 creates no cell at B1; the search for a circular
    dependency dereferences the null pointer it gets for B1. *)
Theorem Set_does_not_materialize :
  Sheet_GetCell ∅ B1 = Returns None ∧
  Sheet_SetCell A1 "=B1" ∅ = Undefined.
Proof. split; reflexivity. Qed.

(** C3 — cycle rejection: after B1 is set to the text x, [Set] on B1 with
    the formula A1+B1, which refers to B1 itself, does not throw
    CircularDependency: the search goes through the referenced cells in
    order, gets the null pointer for the never-set A1 first and
    dereferences it. *)
Theorem Set_cycle_search_dereferences_null :
  perform_all text_B1 ∅ = Some text_B1_sheet ∧
  TryCreateCell "=A1+B1" = Returns (FormulaCellValue formula_A1_B1 None) ∧
  Formula_GetReferencedCells formula_A1_B1 = [A1; B1] ∧
  rtc (ref_edge text_B1_sheet) B1 B1 ∧
  Sheet_GetCell text_B1_sheet A1 = Returns None ∧
  Cell_Set B1 "=A1+B1" text_B1_sheet = Undefined ∧
  Cell_Set B1 "=A1+B1" text_B1_sheet
  ≠ Throw (CircularDependencyException "") text_B1_sheet.
Proof. repeat split; first [reflexivity | discriminate]. Qed.

(** C1 — cache validity: after the trace, B1 holds the cached value 1 while
    its formula, evaluated on the sheet with every cache emptied, yields
    2. *)
Theorem stale_cache_after_edit :
  ∃ s s1,
    perform_all stale_trace ∅ = Some s ∧
    value_ <$> s !! B1 = Some (Some (FormulaCellValue formula_A1 (Some 1))) ∧
    Formula_Evaluate (Cell_GetValue (size s)) formula_A1 (skeleton s)
    = Ret (inl 2) s1.
Proof.
  eexists _, _. split; [reflexivity|].
  split; reflexivity.
Qed.

(** ** The general claims at a concrete sheet *)

Lemma edge_symmetry_witness :
  perform_all two_cells ∅ = Some two_cells_sheet ∧
  two_cells_sheet !! B1 = Some cell_B1 ∧
  two_cells_sheet !! A1 = Some cell_A1 ∧
  (A1 ∈ descending_cells_ cell_B1 ↔ B1 ∈ ascending_cells_ cell_A1).
Proof.
  assert (H1 : perform_all two_cells ∅ = Some two_cells_sheet)
    by (reflexivity).
  assert (H2 : two_cells_sheet !! B1 = Some cell_B1) by (reflexivity).
  assert (H3 : two_cells_sheet !! A1 = Some cell_A1) by (reflexivity).
  split; [exact H1|]. split; [exact H2|]. split; [exact H3|].
  exact (edge_symmetry two_cells two_cells_sheet B1 A1 cell_B1 cell_A1 H1 H2 H3).
Defined.

Lemma Set_rejects_cycles_witness :
  perform_all two_cells ∅ = Some two_cells_sheet ∧
  is_Some (two_cells_sheet !! A1) ∧
  TryCreateCell "=B1" = Returns (FormulaCellValue formula_B1 None) ∧
  refs_present two_cells_sheet (Formula_GetReferencedCells formula_B1) ∧
  (Cell_Set A1 "=B1" two_cells_sheet
     = Throw (CircularDependencyException "") two_cells_sheet
   ↔ ∃ r, r ∈ Formula_GetReferencedCells formula_B1 ∧
          rtc (ref_edge two_cells_sheet) r A1) ∧
  ((∀ r, r ∈ Formula_GetReferencedCells formula_B1 →
      ¬ rtc (ref_edge two_cells_sheet) r A1) →
   ∃ s', Cell_Set A1 "=B1" two_cells_sheet = Ret () s') ∧
  (∀ text' s', Cell_Set A1 text' two_cells_sheet = Ret () s' →
     ∀ a, ¬ tc (out_edge s') a a).
Proof.
  assert (H1 : perform_all two_cells ∅ = Some two_cells_sheet)
    by (reflexivity).
  assert (H2 : is_Some (two_cells_sheet !! A1))
    by (exists cell_A1; reflexivity).
  assert (H3 : TryCreateCell "=B1" = Returns (FormulaCellValue formula_B1 None))
    by (reflexivity).
  assert (H4 : refs_present two_cells_sheet (Formula_GetReferencedCells formula_B1)).
  { intros r Hr. apply list_elem_of_singleton in Hr. rewrite Hr.
    split; [exists cell_B1|]; reflexivity. }
  split; [exact H1|]. split; [exact H2|]. split; [exact H3|]. split; [exact H4|].
  exact (Set_rejects_cycles two_cells two_cells_sheet A1 "=B1" formula_B1
           H1 H2 H3 H4).
Defined.

Lemma Set_rejected_is_atomic_witness :
  Cell_Set B1 "=A1+" two_cells_sheet
    = Throw (FormulaException "Error in Set() method call for text: =A1+")
        two_cells_sheet ∧
  Cell_Set A1 "=B1" two_cells_sheet
    = Throw (CircularDependencyException "") two_cells_sheet ∧
  two_cells_sheet = two_cells_sheet.
Proof.
  assert (H1 : Cell_Set B1 "=A1+" two_cells_sheet
               = Throw (FormulaException "Error in Set() method call for text: =A1+")
                   two_cells_sheet) by (reflexivity).
  assert (H2 : Cell_Set A1 "=B1" two_cells_sheet
               = Throw (CircularDependencyException "") two_cells_sheet)
    by (reflexivity).
  split; [exact H1|]. split; [exact H2|].
  exact (Set_rejected_is_atomic A1 "=B1" two_cells_sheet _ two_cells_sheet H2).
Defined.


(** ** The further properties at concrete sheets *)

Lemma TryCreateCell_throws_only_witness :
  TryCreateCell "=A1+"
    = Throws (FormulaException "Error in Set() method call for text: =A1+") ∧
  ∃ body, "=A1+" = String FORMULA_SIGN body ∧ body ≠ "" ∧
          ParseFormulaAST body = None ∧
          FormulaException "Error in Set() method call for text: =A1+"
          = FormulaException ("Error in Set() method call for text: " +:+ "=A1+").
Proof.
  assert (H1 : TryCreateCell "=A1+"
               = Throws (FormulaException "Error in Set() method call for text: =A1+"))
    by reflexivity.
  split; [exact H1|].
  exact (TryCreateCell_throws_only "=A1+" _ H1).
Defined.

Lemma TryCreateCell_plain_text_witness :
  (∀ body, body ≠ "" → "'=A1" ≠ String FORMULA_SIGN body) ∧
  TryCreateCell "'=A1" = Returns (TextCellValue "'=A1").
Proof.
  assert (H1 : ∀ body, body ≠ "" → "'=A1" ≠ String FORMULA_SIGN body)
    by (intros body _; discriminate).
  split; [exact H1|].
  exact (TryCreateCell_plain_text "'=A1" H1).
Defined.

Lemma Set_throws_only_witness :
  Cell_Set A1 "=B1" two_cells_sheet
    = Throw (CircularDependencyException "") two_cells_sheet ∧
  (CircularDependencyException ""
   = FormulaException ("Error in Set() method call for text: " +:+ "=B1") ∨
   CircularDependencyException "" = CircularDependencyException "" ∨
   CircularDependencyException "" = InvalidPositionException "").
Proof.
  assert (H1 : Cell_Set A1 "=B1" two_cells_sheet
               = Throw (CircularDependencyException "") two_cells_sheet)
    by reflexivity.
  split; [exact H1|].
  exact (Set_throws_only A1 "=B1" two_cells_sheet _ two_cells_sheet H1).
Defined.

Lemma Set_then_GetText_witness :
  Cell_Set A1 "2" two_cells_sheet = Ret () two_cells_edited ∧
  (∀ body, body ≠ "" → "2" ≠ String FORMULA_SIGN body) ∧
  Cell_GetText A1 two_cells_edited = Ret "2" two_cells_edited.
Proof.
  assert (H1 : Cell_Set A1 "2" two_cells_sheet = Ret () two_cells_edited)
    by reflexivity.
  assert (H2 : ∀ body, body ≠ "" → "2" ≠ String FORMULA_SIGN body)
    by (intros body _; discriminate).
  split; [exact H1|]. split; [exact H2|].
  exact (proj2 (Set_then_GetText A1 "2" two_cells_sheet two_cells_edited H1) H2).
Defined.

Lemma Set_keeps_other_texts_witness :
  Cell_Set A1 "2" two_cells_sheet = Ret () two_cells_edited ∧
  B1 ≠ A1 ∧
  returned (Cell_GetText B1 two_cells_edited)
  = returned (Cell_GetText B1 two_cells_sheet).
Proof.
  assert (H1 : Cell_Set A1 "2" two_cells_sheet = Ret () two_cells_edited)
    by reflexivity.
  assert (H2 : B1 ≠ A1) by discriminate.
  split; [exact H1|]. split; [exact H2|].
  exact (Set_keeps_other_texts A1 "2" two_cells_sheet two_cells_edited B1 H1 H2).
Defined.

Lemma Set_fills_no_cache_witness :
  Cell_Set B1 "=A1" two_cells_read = Ret () two_cells_sheet ∧
  cache_of two_cells_sheet B1 = None ∧
  ∀ a, a ≠ B1 →
    cache_of two_cells_sheet a = cache_of two_cells_read a ∨
    cache_of two_cells_sheet a = None.
Proof.
  assert (H1 : Cell_Set B1 "=A1" two_cells_read = Ret () two_cells_sheet)
    by reflexivity.
  split; [exact H1|].
  exact (Set_fills_no_cache B1 "=A1" two_cells_read two_cells_sheet H1).
Defined.

Lemma Set_attaches_references_witness :
  perform_all two_cells ∅ = Some two_cells_sheet ∧
  Cell_Set B1 "=A1" two_cells_sheet = Ret () two_cells_sheet ∧
  ∃ tmp, TryCreateCell "=A1" = Returns tmp ∧
    (∀ b, out_edge two_cells_sheet B1 b ↔ b ∈ refs_of (Some tmp)) ∧
    (∀ b, in_edge two_cells_sheet b B1 ↔ b ∈ refs_of (Some tmp)) ∧
    (∀ a b, a ≠ B1 → (out_edge two_cells_sheet a b ↔ out_edge two_cells_sheet a b)) ∧
    (∀ a b, a ≠ B1 → (in_edge two_cells_sheet b a ↔ in_edge two_cells_sheet b a)).
Proof.
  assert (H1 : perform_all two_cells ∅ = Some two_cells_sheet) by reflexivity.
  assert (H2 : Cell_Set B1 "=A1" two_cells_sheet = Ret () two_cells_sheet)
    by reflexivity.
  split; [exact H1|]. split; [exact H2|].
  exact (Set_attaches_references two_cells two_cells_sheet B1 "=A1" two_cells_sheet
           H1 H2).
Defined.

Lemma Set_plain_text_returns_witness :
  perform_all two_cells ∅ = Some two_cells_sheet ∧
  is_Some (two_cells_sheet !! A1) ∧
  (∀ body, body ≠ "" → "2" ≠ String FORMULA_SIGN body) ∧
  ∃ s', Cell_Set A1 "2" two_cells_sheet = Ret () s'.
Proof.
  assert (H1 : perform_all two_cells ∅ = Some two_cells_sheet) by reflexivity.
  assert (H2 : is_Some (two_cells_sheet !! A1)) by (exists cell_A1; reflexivity).
  assert (H3 : ∀ body, body ≠ "" → "2" ≠ String FORMULA_SIGN body)
    by (intros body _; discriminate).
  split; [exact H1|]. split; [exact H2|]. split; [exact H3|].
  exact (Set_plain_text_returns two_cells two_cells_sheet A1 "2" H1 H2 H3).
Defined.

Lemma Clear_is_Set_empty_witness :
  two_cells_sheet !! B1 = Some cell_B1 ∧
  is_Some (value_ cell_B1) ∧
  Cell_Clear B1 two_cells_sheet = Cell_Set B1 "" two_cells_sheet.
Proof.
  assert (H1 : two_cells_sheet !! B1 = Some cell_B1) by reflexivity.
  assert (H2 : is_Some (value_ cell_B1))
    by (exists (FormulaCellValue formula_A1 None); reflexivity).
  split; [exact H1|]. split; [exact H2|].
  exact (Clear_is_Set_empty B1 two_cells_sheet cell_B1 H1 H2).
Defined.

Lemma Clear_empties_cell_witness :
  perform_all two_cells ∅ = Some two_cells_sheet ∧
  is_Some (two_cells_sheet !! B1) ∧
  ∃ s', Cell_Clear B1 two_cells_sheet = Ret () s' ∧
        Cell_GetText B1 s' = Ret "" s' ∧
        Cell_GetValue 1 B1 s' = Ret (VDouble zero) s' ∧
        (∀ b, ¬ out_edge s' B1 b) ∧
        (∀ b, ¬ in_edge s' b B1) ∧
        (∀ a, in_edge s' B1 a ↔ in_edge two_cells_sheet B1 a) ∧
        (∀ a b, a ≠ B1 → (out_edge s' a b ↔ out_edge two_cells_sheet a b)).
Proof.
  assert (H1 : perform_all two_cells ∅ = Some two_cells_sheet) by reflexivity.
  assert (H2 : is_Some (two_cells_sheet !! B1)) by (exists cell_B1; reflexivity).
  split; [exact H1|]. split; [exact H2|].
  exact (Clear_empties_cell two_cells two_cells_sheet B1 H1 H2).
Defined.

Lemma GetValue_throws_only_witness :
  Cell_GetValue 1 A1 dangling_sheet
    = Throw (InvalidPositionException "") dangling_sheet ∧
  InvalidPositionException "" = InvalidPositionException "".
Proof.
  assert (H1 : Cell_GetValue 1 A1 dangling_sheet
               = Throw (InvalidPositionException "") dangling_sheet)
    by reflexivity.
  split; [exact H1|].
  exact (GetValue_throws_only 1 A1 dangling_sheet _ dangling_sheet H1).
Defined.

Lemma GetValue_only_fills_caches_witness :
  Cell_GetValue 2 B1 two_cells_sheet = Ret (VDouble 1) two_cells_read ∧
  skeleton two_cells_read = skeleton two_cells_sheet ∧
  caches_kept two_cells_sheet two_cells_read.
Proof.
  assert (H1 : Cell_GetValue 2 B1 two_cells_sheet = Ret (VDouble 1) two_cells_read)
    by reflexivity.
  split; [exact H1|].
  exact (GetValue_only_fills_caches 2 B1 two_cells_sheet _ two_cells_read H1 eq_refl).
Defined.

Lemma GetValue_repeatable_witness :
  Cell_GetValue 2 B1 two_cells_sheet = Ret (VDouble 1) two_cells_read ∧
  (∀ error, VDouble 1 ≠ VError error) ∧
  Cell_GetValue 1 B1 two_cells_read = Ret (VDouble 1) two_cells_read.
Proof.
  assert (H1 : Cell_GetValue 2 B1 two_cells_sheet = Ret (VDouble 1) two_cells_read)
    by reflexivity.
  assert (H2 : ∀ error : FormulaError, VDouble 1 ≠ VError error)
    by (intros error; discriminate).
  split; [exact H1|]. split; [exact H2|].
  exact (GetValue_repeatable 1 0 B1 two_cells_sheet (VDouble 1) two_cells_read H1 H2).
Defined.

Lemma lookup_of_nothing_is_zero_witness :
  IsValid C1 = true ∧
  two_cells_sheet !! C1 = None ∧
  get_value (Cell_GetValue 1) C1 two_cells_sheet = Ret 0 two_cells_sheet.
Proof.
  assert (H1 : IsValid C1 = true) by reflexivity.
  assert (H2 : two_cells_sheet !! C1 = None) by reflexivity.
  split; [exact H1|]. split; [exact H2|].
  exact (lookup_of_nothing_is_zero 0 C1 two_cells_sheet H1 (or_introl H2)).
Defined.

Lemma CellValueGetter_converts_strict_decimals_witness :
  regex_match "-12.5" strict_decimal = true ∧
  CellValueGetter (VString "-12.5") = Returns (-12).
Proof.
  assert (H1 : regex_match "-12.5" strict_decimal = true) by reflexivity.
  split; [exact H1|].
  exact (CellValueGetter_converts_strict_decimals "-12.5" H1).
Defined.


Lemma ParseFormula_referenced_cells_witness :
  ParseFormula "A1+A1+B1" = Some formula_A1_A1_B1 ∧
  GetCells (ast_ formula_A1_A1_B1) = [A1; A1; B1] ∧
  Sorted Position_le (GetCells (ast_ formula_A1_A1_B1)) ∧
  Formula_GetReferencedCells formula_A1_A1_B1 = [A1; B1] ∧
  Sorted Position_le (Formula_GetReferencedCells formula_A1_A1_B1) ∧
  (∀ position,
     position ∈ Formula_GetReferencedCells formula_A1_A1_B1
     ↔ position ∈ GetCells (ast_ formula_A1_A1_B1)) ∧
  NoDup (Formula_GetReferencedCells formula_A1_A1_B1).
Proof.
  assert (H1 : ParseFormula "A1+A1+B1" = Some formula_A1_A1_B1) by reflexivity.
  assert (H2 : Sorted Position_le (GetCells (ast_ formula_A1_A1_B1))).
  { repeat constructor. }
  pose proof (ParseFormula_referenced_cells "A1+A1+B1" formula_A1_A1_B1 H1)
    as (Hsorted & Helems & Hnodup).
  split; [exact H1|]. split; [reflexivity|]. split; [exact H2|].
  split; [reflexivity|]. split; [exact Hsorted|]. split; [exact Helems|].
  exact (Hnodup H2).
Defined.

Lemma reachable_edges_follow_formulas_witness :
  perform_all two_cells ∅ = Some two_cells_sheet ∧
  (∀ a, is_Some (two_cells_sheet !! a) → IsValid a = true) ∧
  (∀ a b, out_edge two_cells_sheet a b ↔ ref_edge two_cells_sheet a b) ∧
  (∀ a b, ref_edge two_cells_sheet a b →
     is_Some (two_cells_sheet !! b) ∧ IsValid b = true) ∧
  (∀ a, ¬ tc (ref_edge two_cells_sheet) a a).
Proof.
  assert (H1 : perform_all two_cells ∅ = Some two_cells_sheet) by reflexivity.
  split; [exact H1|].
  exact (reachable_edges_follow_formulas two_cells two_cells_sheet H1).
Defined.

Lemma Set_keeps_unrelated_caches_witness :
  perform_all four_cells ∅ = Some four_cells_sheet ∧
  Cell_Set C1 "7" four_cells_sheet = Ret () four_cells_edited ∧
  B1 ≠ C1 ∧
  ¬ tc (ref_edge four_cells_edited) B1 C1 ∧
  cache_of four_cells_sheet D1 = Some 5 ∧
  cache_of four_cells_edited D1 = None ∧
  cache_of four_cells_sheet B1 = Some 1 ∧
  cache_of four_cells_edited B1 = cache_of four_cells_sheet B1.
Proof.
  assert (H1 : perform_all four_cells ∅ = Some four_cells_sheet) by reflexivity.
  assert (H2 : Cell_Set C1 "7" four_cells_sheet = Ret () four_cells_edited)
    by reflexivity.
  assert (H3 : B1 ≠ C1) by discriminate.
  assert (H4 : ¬ tc (ref_edge four_cells_edited) B1 C1).
  { intros [(c & Hc & Hin)|(y & (c & Hc & Hin) & Hy)]%tc_first_step.
    - change (Some cell_B1_read = Some c) in Hc. injection Hc as <-.
      apply list_elem_of_singleton in Hin. discriminate Hin.
    - change (Some cell_B1_read = Some c) in Hc. injection Hc as <-.
      apply list_elem_of_singleton in Hin. rewrite Hin in Hy.
      apply tc_first_edge in Hy as [z (c & Hc & Hz)].
      change (Some cell_A1 = Some c) in Hc. injection Hc as <-.
      by apply elem_of_nil in Hz. }
  split; [exact H1|]. split; [exact H2|]. split; [exact H3|]. split; [exact H4|].
  split; [reflexivity|]. split; [reflexivity|]. split; [reflexivity|].
  exact (Set_keeps_unrelated_caches four_cells four_cells_sheet C1 "7"
           four_cells_edited B1 H1 H2 H3 H4).
Defined.

Lemma GetValue_returns_witness :
  perform_all two_cells ∅ = Some two_cells_sheet ∧
  (∀ a c, two_cells_sheet !! a = Some c → is_Some (value_ c)) ∧
  (∀ a c f o, two_cells_sheet !! a = Some c →
     value_ c = Some (FormulaCellValue f o) →
     looks_up_only (Formula_GetReferencedCells f) (Execute (ast_ f))) ∧
  is_Some (two_cells_sheet !! B1) ∧
  (size two_cells_sheet < 3)%nat ∧
  ∃ v s', Cell_GetValue 3 B1 two_cells_sheet = Ret v s'.
Proof.
  assert (H1 : perform_all two_cells ∅ = Some two_cells_sheet) by reflexivity.
  assert (H2 : ∀ a c, two_cells_sheet !! a = Some c → is_Some (value_ c)).
  { intros a c Hc. unfold two_cells_sheet in Hc.
    apply lookup_insert_Some in Hc as [[_ <-]|[_ Hc]]; [by eexists|].
    apply lookup_insert_Some in Hc as [[_ <-]|[_ Hc]]; [by eexists|].
    by rewrite lookup_empty in Hc. }
  assert (H3 : ∀ a c f o, two_cells_sheet !! a = Some c →
                 value_ c = Some (FormulaCellValue f o) →
                 looks_up_only (Formula_GetReferencedCells f) (Execute (ast_ f))).
  { intros a c f o Hc Hf. unfold two_cells_sheet in Hc.
    apply lookup_insert_Some in Hc as [[_ <-]|[_ Hc]].
    - injection Hf as <- _. split; [by left|done].
    - apply lookup_insert_Some in Hc as [[_ <-]|[_ Hc]]; [discriminate Hf|].
      by rewrite lookup_empty in Hc. }
  assert (H4 : is_Some (two_cells_sheet !! B1)) by (exists cell_B1; reflexivity).
  assert (H5 : (size two_cells_sheet < 3)%nat) by (apply Nat.ltb_lt; reflexivity).
  split; [exact H1|]. split; [exact H2|]. split; [exact H3|]. split; [exact H4|].
  split; [exact H5|].
  exact (GetValue_returns two_cells two_cells_sheet B1 3 H1 H2 H3 H4 H5).
Defined.

Lemma GetReferencedCells_of_formula_cell_witness :
  perform_all two_cells ∅ = Some two_cells_sheet ∧
  two_cells_sheet !! B1 = Some cell_B1 ∧
  value_ cell_B1 = Some (FormulaCellValue formula_A1 None) ∧
  Cell_GetReferencedCells B1 two_cells_sheet = Ret [A1] two_cells_sheet ∧
  (∀ b, b ∈ Formula_GetReferencedCells formula_A1 ↔ b ∈ descending_cells_ cell_B1) ∧
  (∀ b, b ∈ Formula_GetReferencedCells formula_A1 →
     ∃ cb, two_cells_sheet !! b = Some cb ∧ B1 ∈ ascending_cells_ cb).
Proof.
  assert (H1 : perform_all two_cells ∅ = Some two_cells_sheet) by reflexivity.
  assert (H2 : two_cells_sheet !! B1 = Some cell_B1) by reflexivity.
  assert (H3 : value_ cell_B1 = Some (FormulaCellValue formula_A1 None))
    by reflexivity.
  split; [exact H1|]. split; [exact H2|]. split; [exact H3|].
  exact (GetReferencedCells_of_formula_cell two_cells two_cells_sheet B1 cell_B1
           formula_A1 None H1 H2 H3).
Defined.
